(** * Louvain community detection (src/louvain.hxx): embedding and properties

    The C++ templates are instantiated at [K := nat] (vertex and community
    ids) and [V := Qc] (edge weights and modularity, exact rationals: the
    rounding of a machine float is outside this model; where a property
    rests on exact cancellation it says so, and module [Float64] runs the
    routines concerned at IEEE doubles).  A [vector<T>] is a
    [list T]; [operator[]] outside the vector is undefined behaviour in C++
    and is the failure [None] of the option monad here, so every routine
    that indexes a vector returns an [option]. *)

From Stdlib Require Import QArith Qcanon.
From Stdlib Require PrimFloat.
From stdpp Require Import base tactics option list numbers.

Local Open Scope Qc_scope.

(** The template parameters [K] and [V]. *)
Abbreviation K := nat.
Abbreviation V := Qc.

(** ** Vectors *)

(** [v[i]] as an rvalue. *)
Definition vget {A} (v : list A) (i : K) : option A := v !! i.

(** [v[i] = a]. *)
Definition vset {A} (v : list A) (i : K) (a : A) : option (list A) :=
  if decide (i < length v)%nat then Some (<[i:=a]> v) else None.

(** A loop [for (a : l) s = f(s, a)] whose body may fail. *)
Fixpoint forEach {A St} (f : St → A → option St) (l : list A) (s : St)
  : option St :=
  match l with
  | [] => Some s
  | a :: l => s' ← f s a; forEach f l s'
  end.

Definition sumV (l : list V) : V := foldr Qcplus 0 l.

(** ** Graph container *)

(** Modelled from the spec: the graph container of Graph.hxx, which is not
    part of the sources at hand.  Slot [u] of [adj] is [Some es] when [u] is
    a live vertex whose outgoing edges are [es] (in enumeration order) and
    [None] when the key is unused; the span is the number of slots. *)
Record Graph := mkGraph { adj : list (option (list (K * V))) }.

(** Modelled from the spec: [x.span()]. *)
Definition span (x : Graph) : K := length (adj x).

(** Modelled from the spec: whether key [u] is a live vertex. *)
Definition hasVertex (x : Graph) (u : K) : bool :=
  match adj x !! u with Some (Some _) => true | _ => false end.

(** Modelled from the spec: [x.forEachVertexKey], the live keys in
    increasing order. *)
Definition vertexKeys (x : Graph) : list K :=
  filter (λ u, hasVertex x u = true) (seq 0 (span x)).

(** Modelled from the spec: [x.forEachEdge(u, ...)], the pairs
    (target, weight) leaving [u]. *)
Definition edges (x : Graph) (u : K) : list (K * V) :=
  match adj x !! u with Some (Some es) => es | _ => [] end.

(** Modelled from the spec: [x.forEachEdgeKey(u, ...)]. *)
Definition edgeKeys (x : Graph) (u : K) : list K := (edges x u).*1.

(** Modelled from the spec: [a.addVertex(u)], growing the span on demand. *)
Definition addVertex (a : Graph) (u : K) : Graph :=
  let s := adj a ++ replicate (S u - length (adj a)) None in
  match s !! u with
  | Some (Some _) => mkGraph s
  | _ => mkGraph (<[u:=Some []]> s)
  end.

(** Modelled from the spec: [a.addEdge(u, v, w)], appended to the edges of
    [u] after both end points are made live. *)
Definition addEdge (a : Graph) (u v : K) (w : V) : Graph :=
  let a := addVertex (addVertex a u) v in
  mkGraph (<[u:=Some (edges a u ++ [(v, w)])]> (adj a)).

(** The weight stored on the ordered pair (u, v). *)
Definition edgeWeight (x : Graph) (u v : K) : V :=
  sumV ((filter (λ e, e.1 = v) (edges x u)).*2).

(** ** LOUVAIN-INITIALIZE *)

Definition louvainVertexWeights (vtot : list V) (x : Graph)
  : option (list V) :=
  forEach (λ vtot u,
    forEach (λ vtot '(v, w), t ← vget vtot u; vset vtot u (t + w))
            (edges x u) vtot)
    (vertexKeys x) vtot.

Definition louvainCommunityWeights (ctot : list V) (x : Graph)
    (vcom : list K) (vtot : list V) : option (list V) :=
  forEach (λ ctot u,
    c ← vget vcom u; t ← vget ctot c; tu ← vget vtot u;
    vset ctot c (t + tu))
    (vertexKeys x) ctot.

Definition louvainInitialize (vcom : list K) (ctot : list V) (x : Graph)
    (vtot : list V) : option (list K * list V) :=
  forEach (λ '(vcom, ctot) u,
    vcom ← vset vcom u u;
    tu ← vget vtot u;
    ctot ← vset ctot u tu;
    Some (vcom, ctot))
    (vertexKeys x) (vcom, ctot).

(** ** LOUVAIN-CHANGE-COMMUNITY *)

(** One edge (v, w) of the scan of [u]. *)
Definition louvainScanEdge (SELF : bool) (u : K) (vcom : list K)
    (s : list K * list V) (e : K * V) : option (list K * list V) :=
  let '(vcs, vcout) := s in
  let '(v, w) := e in
  if negb SELF && bool_decide (u = v) then Some (vcs, vcout)
  else
    c ← vget vcom v;
    o ← vget vcout c;
    let vcs := if decide (o = 0) then vcs ++ [c] else vcs in
    vcout ← vset vcout c (o + w);
    Some (vcs, vcout).

Definition louvainScanCommunities (SELF : bool) (vcs : list K)
    (vcout : list V) (x : Graph) (u : K) (vcom : list K)
  : option (list K * list V) :=
  forEach (louvainScanEdge SELF u vcom) (edges x u) (vcs, vcout).

Definition louvainClearScan (vcs : list K) (vcout : list V)
  : option (list K * list V) :=
  vcout ← forEach (λ vcout c, vset vcout c 0) vcs vcout;
  Some ([], vcout).

Section Defs.

(** [deltaModularity] lives in modularity.hxx, which is not part of the
    sources at hand: the routines below take it as a parameter. *)
Variable deltaModularity : V → V → V → V → V → V → V → V.

(** One candidate [c] of the choice for [u], whose community is [d]. *)
Definition louvainChooseStep (SELF : bool) (u d : K) (vtot ctot : list V)
    (vcout : list V) (M R : V) (s : K * V) (c : K) : option (K * V) :=
  let '(cmax, emax) := s in
  if negb SELF && bool_decide (c = d) then Some (cmax, emax)
  else
    oc ← vget vcout c; od ← vget vcout d; tu ← vget vtot u;
    tc ← vget ctot c; td ← vget ctot d;
    let e := deltaModularity oc od tu tc td M R in
    if decide (emax < e) then Some (c, e) else Some (cmax, emax).

Definition louvainChooseCommunity (SELF : bool) (x : Graph) (u : K)
    (vcom : list K) (vtot ctot : list V) (vcs : list K) (vcout : list V)
    (M R : V) : option (K * V) :=
  d ← vget vcom u;
  forEach (louvainChooseStep SELF u d vtot ctot vcout M R) vcs (0%nat, 0).

Definition louvainChangeCommunity (vcom : list K) (ctot : list V)
    (x : Graph) (u c : K) (vtot : list V) : option (list K * list V) :=
  d ← vget vcom u;
  td ← vget ctot d; tu ← vget vtot u;
  ctot ← vset ctot d (td - tu);
  tc ← vget ctot c; tu ← vget vtot u;
  ctot ← vset ctot c (tc + tu);
  vcom ← vset vcom u c;
  Some (vcom, ctot).

(** ** LOUVAIN-MOVE *)

(** The vectors [louvainMove] updates through its references. *)
Record MoveState := mkMoveState {
  st_vcom : list K; st_ctot : list V; st_vcs : list K; st_vcout : list V }.

(** The body of the lambda of [louvainMove]: one visit of vertex [u];
    [el] is the running sum of the sweep. *)
Definition louvainMoveVisit (x : Graph) (vtot : list V) (M R : V)
    (s : MoveState * V) (u : K) : option (MoveState * V) :=
  let '(mkMoveState vcom ctot vcs vcout, el) := s in
  '(vcs, vcout) ← louvainClearScan vcs vcout;
  '(vcs, vcout) ← louvainScanCommunities false vcs vcout x u vcom;
  '(c, e) ← louvainChooseCommunity false x u vcom vtot ctot vcs vcout M R;
  '(vcom, ctot) ← (if decide (c ≠ 0%nat)
                    then louvainChangeCommunity vcom ctot x u c vtot
                    else Some (vcom, ctot));
  Some (mkMoveState vcom ctot vcs vcout, el + e).

(** One sweep: [el = V()] and then the visit of every live vertex. *)
Definition louvainMoveSweep (x : Graph) (vtot : list V) (M R : V)
    (st : MoveState) : option (MoveState * V) :=
  forEach (louvainMoveVisit x vtot M R) (vertexKeys x) (st, 0).

(** The loop [for (; l<L;)]: [n] is the number of iterations still
    allowed, [L - l]. *)
Fixpoint louvainMoveLoop (x : Graph) (vtot : list V) (M R E : V)
    (n : nat) (l : Z) (st : MoveState) : option (MoveState * Z) :=
  match n with
  | O => Some (st, l)
  | S n =>
      '(st, el) ← louvainMoveSweep x vtot M R st;
      let l := (l + 1)%Z in
      if decide (el ≤ E) then Some (st, l)
      else louvainMoveLoop x vtot M R E n l st
  end.

Definition louvainMove (st : MoveState) (x : Graph) (vtot : list V)
    (M R E : V) (L : Z) : option (MoveState * Z) :=
  louvainMoveLoop x vtot M R E (Z.to_nat L) 0%Z st.

End Defs.

(** ** LOUVAIN-AGGREGATE *)

Definition louvainCommunityVertices (x : Graph) (vcom : list K)
  : option (list (list K)) :=
  forEach (λ a u, c ← vget vcom u; m ← vget a c; vset a c (m ++ [u]))
          (vertexKeys x) (replicate (span x) []).

(** The body of the loop over [c] in [louvainAggregate]. *)
Definition louvainAggregateCommunity (x : Graph) (vcom : list K)
    (comv : list (list K)) (s : Graph * list K * list V) (c : K)
  : option (Graph * list K * list V) :=
  let '(a, vcs, vcout) := s in
  '(vcs, vcout) ← louvainClearScan vcs vcout;
  members ← vget comv c;
  '(vcs, vcout) ←
    forEach (λ '(vcs, vcout) u, louvainScanCommunities true vcs vcout x u vcom)
            members (vcs, vcout);
  let a := addVertex a c in
  a ← forEach (λ a d, w ← vget vcout d; Some (addEdge a c d w)) vcs a;
  Some (a, vcs, vcout).

(** [vcs] and [vcout] are default-constructed, hence both empty. *)
Definition louvainAggregate (a x : Graph) (vcom : list K) : option Graph :=
  comv ← louvainCommunityVertices x vcom;
  '(a, _, _) ← forEach (louvainAggregateCommunity x vcom comv)
                       (seq 0 (length comv)) (a, [], []);
  Some a.

(** ** LOUVAIN-LOOKUP-COMMUNITIES *)

Definition louvainLookupCommunities (a vcom : list K) : option (list K) :=
  mapM (λ v, vget vcom v) a.

(** The lookup repeated over the levels [vcom_0, vcom_1, ...] in turn. *)
Definition louvainLookupLevels (a : list K) (levels : list (list K))
  : option (list K) :=
  forEach louvainLookupCommunities levels a.

(** The community of leaf [v] after the levels, read off one by one. *)
Fixpoint topCommunity (levels : list (list K)) (v : K) : option K :=
  match levels with
  | [] => Some v
  | vcom :: levels => c ← vget vcom v; topCommunity levels c
  end.

(** ** LOUVAIN-AFFECTED-VERTICES *)

(** The three flag vectors of [louvainAffectedVertices]. *)
Record Marks := mkMarks {
  mk_vertices : list bool; mk_neighbors : list bool;
  mk_communities : list bool }.

Definition louvainAffectedDeletion (vcom : list K) (m : Marks) (e : K * K)
  : option Marks :=
  let '(mkMarks vs ns cs) := m in
  let '(u, v) := e in
  vs ← vset vs u true;
  ns ← vset ns u true;
  c ← vget vcom v;
  cs ← vset cs c true;
  Some (mkMarks vs ns cs).

Definition louvainAffectedExpand (x : Graph) (vcom : list K)
    (ns cs : list bool) (vs : list bool) (u : K) : option (list bool) :=
  nb ← vget ns u;
  vs ← (if (nb : bool) then forEach (λ vs v, vset vs v true) (edgeKeys x u) vs
        else Some vs);
  c ← vget vcom u;
  cm ← vget cs c;
  if (cm : bool) then vset vs u true else Some vs.

Section DefsAffected.

Variable deltaModularity : V → V → V → V → V → V → V → V.

(** The body of the loop over the insertions; [c] is returned next to the
    state so that the community that gets marked can be named. *)
Definition louvainAffectedInsertion (x : Graph) (vcom : list K)
    (vtot ctot : list V) (M R : V)
    (s : list K * list V * Marks) (e : K * K)
  : option (list K * list V * Marks) :=
  let '(vcs, vcout, mkMarks vs ns cs) := s in
  let '(u, _) := e in
  '(vcs, vcout) ← louvainClearScan vcs vcout;
  '(c, _) ← louvainChooseCommunity deltaModularity false x u vcom vtot ctot
                                   vcs vcout M R;
  vs ← vset vs u true;
  ns ← vset ns u true;
  cs ← vset cs c true;
  Some (vcs, vcout, mkMarks vs ns cs).

(** The flags after the two loops over the batch. *)
Definition louvainAffectedMarks (x : Graph) (deletions insertions : list (K * K))
    (vcom : list K) (vtot ctot : list V) (M R : V) : option Marks :=
  let S := span x in
  let vcs : list K := [] in
  let vcout : list V := replicate S 0 in
  let m := mkMarks (replicate S false) (replicate S false)
                   (replicate S false) in
  m ← forEach (louvainAffectedDeletion vcom) deletions m;
  '(_, _, m) ← forEach (louvainAffectedInsertion x vcom vtot ctot M R)
                       insertions (vcs, vcout, m);
  Some m.

Definition louvainAffectedVertices (x : Graph)
    (deletions insertions : list (K * K))
    (vcom : list K) (vtot ctot : list V) (M R : V) : option (list bool) :=
  '(mkMarks vs ns cs) ← louvainAffectedMarks x deletions insertions
                                             vcom vtot ctot M R;
  forEach (louvainAffectedExpand x vcom ns cs) (vertexKeys x) vs.

(** What the spec describes for one vertex: the full scan of the
    neighbour communities of [u] followed by the choice. *)
Definition bestCommunity (x : Graph) (u : K) (vcom : list K)
    (vtot ctot : list V) (M R : V) : option (K * V) :=
  '(vcs, vcout) ← louvainScanCommunities false [] (replicate (span x) 0)
                                         x u vcom;
  louvainChooseCommunity deltaModularity false x u vcom vtot ctot
                         vcs vcout M R.

End DefsAffected.

(** ** Concrete data *)

(** Modelled from the spec: [deltaModularity] of modularity.hxx, the gain
    of moving a vertex of weight [vtot] from community d to community c,
    [(vcout - vdout)/M - R*vtot*(vtot + ctot - dtot)/(2*M*M)]. *)
Definition deltaModularity (vcout vdout vtot ctot dtot M R : V) : V :=
  (vcout - vdout) / M - R * vtot * (vtot + ctot - dtot) / (2 * M * M).

Definition q (n : Z) (d : positive) : V := Q2Qc (n # d).

(** Vertex 0 isolated, and the path 1 - 2 - 3 with weights 1 and 2. *)
Definition gPath : Graph :=
  mkGraph [Some []; Some [(2%nat, 1)]; Some [(1%nat, 1); (3%nat, 2)];
           Some [(2%nat, 2)]].

(** Its vertex weights, the clustering {0}, {1}, {2, 3}, the community
    weights of that clustering, and M (half the sum of the weights). *)
Definition vtotPath : list V := [0; 1; q 3 1; 2].
Definition vcomPath : list K := [0; 1; 2; 2]%nat.
Definition ctotPath : list V := [0; 1; q 5 1; 0].
Definition MPath : V := q 3 1.

(** What the scan of vertex 2 leaves in [vcs] and [vcout]. *)
Definition vcsPath2 : list K := [1; 2]%nat.
Definition vcoutPath2 : list V := [0; 1; 2; 0].

(** Vertex 0 isolated, and the chain 1 - 2 - 3 - 4 with weights 1, 2, 2;
    the clustering {0}, {1}, {2, 3, 4} with its weights. *)
Definition gChain : Graph :=
  mkGraph [Some []; Some [(2%nat, 1)]; Some [(1%nat, 1); (3%nat, 2)];
           Some [(2%nat, 2); (4%nat, 2)]; Some [(3%nat, 2)]].
Definition vtotChain : list V := [0; 1; q 3 1; q 4 1; 2].
Definition vcomChain : list K := [0; 1; 2; 2; 2]%nat.
Definition ctotChain : list V := [0; 1; q 9 1; 0; 0].
Definition MChain : V := q 5 1.

(** A single vertex with a self-loop of weight 2. *)
Definition gLoop : Graph := mkGraph [Some [(0%nat, 2)]].

(** Two vertices joined by an edge of weight 0. *)
Definition gZero : Graph :=
  mkGraph [Some [(1%nat, 0)]; Some [(0%nat, 0)]].

(** Vertex 0 joined to 1 and 2 by edges of weight 0. *)
Definition gZero2 : Graph :=
  mkGraph [Some [(1%nat, 0); (2%nat, 0)]; Some [(0%nat, 0)];
           Some [(0%nat, 0)]].

(** ** Specification-side notions *)

(** The sum of [f v] over the keys [v] of [l] that [vcom] puts in
    community [k]. *)
Definition weightIn (f : K → V) (vcom : list K) (l : list K) (k : K) : V :=
  sumV (f <$> filter (λ v, vcom !! v = Some k) l).

(** The sum of [vtot[u]] over the live vertices [u] of community [c]. *)
Definition communityWeight (x : Graph) (vcom : list K) (vtot : list V)
    (c : K) : V :=
  weightIn (λ u, default 0 (vtot !! u)) vcom (vertexKeys x) c.

(** A sequence of calls [louvainChangeCommunity(vcom, ctot, x, u, c, vtot)],
    one for each pair (u, c) of [moves]. *)
Definition louvainChangeCommunities (x : Graph) (vtot : list V)
    (moves : list (K * K)) (s : list K * list V)
  : option (list K * list V) :=
  forEach (λ '(vcom, ctot) '(u, c), louvainChangeCommunity vcom ctot x u c vtot)
          moves s.

(** The state of a level between two moves: vectors of the size of the
    span, communities below the span, and [ctot] consistent with [vcom]. *)
Definition levelInv (x : Graph) (vtot : list V) (s : list K * list V)
  : Prop :=
  length s.1 = span x ∧ length s.2 = span x ∧
  (∀ u, u ∈ vertexKeys x → ∃ d, s.1 !! u = Some d ∧ (d < span x)%nat) ∧
  ∀ c, (c < span x)%nat → s.2 !! c = Some (communityWeight x s.1 vtot c).

(** Every edge of the graph leads to a key below the span. *)
Definition wfGraph (x : Graph) : Prop :=
  ∀ u v w, (v, w) ∈ edges x u → (v < span x)%nat.

(** The vectors of a level have the size of the span and hold ids below
    it. *)
Record wfState (x : Graph) (vtot : list V) (st : MoveState) : Prop := {
  wf_vtot : length vtot = span x;
  wf_vcom : length (st_vcom st) = span x;
  wf_vcom_lt : Forall (λ c, c < span x)%nat (st_vcom st);
  wf_ctot : length (st_ctot st) = span x;
  wf_vcout : length (st_vcout st) = span x;
  wf_vcs : Forall (λ c, c < span x)%nat (st_vcs st) }.

Section SpecDefs.

Variable dm : V → V → V → V → V → V → V → V.

(** The gain [louvainChooseCommunity] computes for candidate [c]. *)
Definition gain (u d : K) (vtot ctot vcout : list V) (M R : V) (c : K)
  : option V :=
  oc ← vget vcout c; od ← vget vcout d; tu ← vget vtot u;
  tc ← vget ctot c; td ← vget ctot d;
  Some (dm oc od tu tc td M R).

(** The state after [n] sweeps of [louvainMove]. *)
Fixpoint sweeps (x : Graph) (vtot : list V) (M R : V) (n : nat)
    (st : MoveState) : option MoveState :=
  match n with
  | O => Some st
  | S n => '(st, _) ← louvainMoveSweep dm x vtot M R st;
           sweeps x vtot M R n st
  end.

(** The value of [el] at the end of sweep number [i] (from 0). *)
Definition sweepGain (x : Graph) (vtot : list V) (M R : V) (i : nat)
    (st : MoveState) : option V :=
  st ← sweeps x vtot M R i st;
  '(_, el) ← louvainMoveSweep dm x vtot M R st;
  Some el.

(** The pair [louvainChooseCommunity] returns at the visit of [u] in
    state [st]: after the clearing and the scan. *)
Definition visitChoice (x : Graph) (vtot : list V) (M R : V)
    (st : MoveState) (u : K) : option (K * V) :=
  '(vcs, vcout) ← louvainClearScan (st_vcs st) (st_vcout st);
  '(vcs, vcout) ← louvainScanCommunities false vcs vcout x u (st_vcom st);
  louvainChooseCommunity dm false x u (st_vcom st) vtot (st_ctot st)
                         vcs vcout M R.

(** The best gains of the vertices [keys] visited in turn from [st]. *)
Fixpoint visitGains (x : Graph) (vtot : list V) (M R : V)
    (keys : list K) (st : MoveState) : option (list V) :=
  match keys with
  | [] => Some []
  | u :: keys =>
      '(_, e) ← visitChoice x vtot M R st u;
      '(st, _) ← louvainMoveVisit dm x vtot M R (st, 0) u;
      es ← visitGains x vtot M R keys st;
      Some (e :: es)
  end.

End SpecDefs.

(** The indices [louvainChooseCommunity] uses stay inside the vectors. *)
Definition chooseBounds (u d : K) (vtot ctot vcout : list V)
    (vcs : list K) : Prop :=
  (u < length vtot)%nat ∧ (d < length vcout)%nat ∧ (d < length ctot)%nat ∧
  Forall (λ c, (c < length vcout)%nat ∧ (c < length ctot)%nat) vcs.

(** The choice as the spec words it: [r] names a candidate of [vcs] other
    than [d] whose gain is maximal, the first such in the order of [vcs]. *)
Definition firstMaximal (g : K → option V) (d : K) (vcs : list K)
    (r : K * V) : Prop :=
  let cands := filter (λ c, c ≠ d) vcs in
  ∃ i, cands !! i = Some r.1 ∧ g r.1 = Some r.2 ∧
       ∀ j c e, cands !! j = Some c → g c = Some e →
                e ≤ r.2 ∧ ((j < i)%nat → e < r.2).

(** The invariant of a scan: [vcs] without repetition, in sync with
    [vcout], and no negative accumulated weight. *)
Definition scanInv (n : nat) (s : list K * list V) : Prop :=
  length s.2 = n ∧ NoDup s.1 ∧ Forall (λ o, 0 ≤ o) s.2 ∧
  ∀ c, c ∈ s.1 ↔ ∃ o, s.2 !! c = Some o ∧ o ≠ 0.

(** [vcs] and [vcout] in sync: [c] is listed exactly when its accumulated
    weight is not zero. *)
Definition scanSync (vcs : list K) (vcout : list V) : Prop :=
  ∀ c, c ∈ vcs ↔ ∃ o, vcout !! c = Some o ∧ o ≠ 0.

(** ** Further specification-side notions *)

(** The weight of the edges of [u] that the scan adds to [vcout[c]]: those
    leading into community [c], the self-loops left out unless [SELF]. *)
Definition scanWeight (SELF : bool) (x : Graph) (u : K) (vcom : list K)
    (c : K) : V :=
  sumV ((filter (λ e, (SELF = true ∨ e.1 ≠ u) ∧ vcom !! e.1 = Some c)
                (edges x u)).*2).

(** A vector of [n] flags that is set exactly on the keys satisfying
    [φ]. *)
Definition flags (n : nat) (l : list bool) (φ : K → Prop) : Prop :=
  length l = n ∧ ∀ w, l !! w = Some true ↔ φ w.

(** ** The template at IEEE doubles *)

(** The two routines that subtract and add back, with their callers'
    view of the graph, at [V := float] (binary64, round to nearest): here
    [ctot[d] -= vtot[u]] and [ctot[c] += vtot[u]] round as the machine
    does.  The definitions are those above, read at the other type. *)
Module Float64.
Import PrimFloat.
Set Warnings "-inexact-float".

Record Graph := mkGraph { adj : list (option (list (K * float))) }.

Definition span (x : Graph) : K := length (adj x).

Definition hasVertex (x : Graph) (u : K) : bool :=
  match adj x !! u with Some (Some _) => true | _ => false end.

Definition vertexKeys (x : Graph) : list K :=
  filter (λ u, hasVertex x u = true) (seq 0 (span x)).

Definition sumV (l : list float) : float := foldr PrimFloat.add 0%float l.

Definition louvainInitialize (vcom : list K) (ctot : list float) (x : Graph)
    (vtot : list float) : option (list K * list float) :=
  forEach (λ '(vcom, ctot) u,
    vcom ← vset vcom u u;
    tu ← vget vtot u;
    ctot ← vset ctot u tu;
    Some (vcom, ctot))
    (vertexKeys x) (vcom, ctot).

Definition louvainChangeCommunity (vcom : list K) (ctot : list float)
    (x : Graph) (u c : K) (vtot : list float)
  : option (list K * list float) :=
  d ← vget vcom u;
  td ← vget ctot d; tu ← vget vtot u;
  ctot ← vset ctot d (PrimFloat.sub td tu);
  tc ← vget ctot c; tu ← vget vtot u;
  ctot ← vset ctot c (PrimFloat.add tc tu);
  vcom ← vset vcom u c;
  Some (vcom, ctot).

Definition louvainChangeCommunities (x : Graph) (vtot : list float)
    (moves : list (K * K)) (s : list K * list float)
  : option (list K * list float) :=
  forEach (λ '(vcom, ctot) '(u, c), louvainChangeCommunity vcom ctot x u c vtot)
          moves s.

(** The sum of [vtot[u]] over the live vertices [u] of community [c]. *)
Definition communityWeight (x : Graph) (vcom : list K) (vtot : list float)
    (c : K) : float :=
  sumV ((λ u, default 0%float (vtot !! u)) <$>
        filter (λ u, vcom !! u = Some c) (vertexKeys x)).

(** Vertex 0 isolated and the path 1 - 2 - 3 with weights 0.1 and 0.1;
    its vertex weights. *)
Definition gTenths : Graph :=
  mkGraph [Some []; Some [(2%nat, 0.1%float)];
           Some [(1%nat, 0.1%float); (3%nat, 0.1%float)];
           Some [(2%nat, 0.1%float)]].
Definition vtotTenths : list float := [0; 0.1; 0.2; 0.1]%float.

(** Three isolated-looking communities of weights 0.1, 0.2 and 0.4. *)
Definition gThree : Graph := mkGraph [Some []; Some []; Some []].
Definition ctotThree : list float := [0.1; 0.2; 0.4]%float.

(** The doubles that the runs below end with. *)
Definition twoTenths : float := 0.2%float.
Definition twoTenthsUp : float := 0.20000000000000004%float.
Definition sevenTenths : float := 0.7%float.
Definition sevenTenthsUp : float := 0.7000000000000001%float.

End Float64.

(** * Proofs *)

(** ** Vectors and loops *)

Lemma vget_Some {A} (v : list A) i a : vget v i = Some a ↔ v !! i = Some a.
Proof. done. Qed.

Lemma vget_lt {A} (v : list A) i : (i < length v)%nat → ∃ a, vget v i = Some a.
Proof. intros Hi. apply lookup_lt_is_Some_2 in Hi as [a Ha]. by exists a. Qed.

Lemma vset_lt {A} (v : list A) i a :
  (i < length v)%nat → vset v i a = Some (<[i:=a]> v).
Proof. intros Hi. unfold vset. by rewrite decide_True. Qed.

Lemma vset_Some {A} (v v' : list A) i a :
  vset v i a = Some v' → (i < length v)%nat ∧ v' = <[i:=a]> v.
Proof. unfold vset. case_decide; naive_solver. Qed.

Lemma forEach_cons {A St} (f : St → A → option St) a l s :
  forEach f (a :: l) s = s' ← f s a; forEach f l s'.
Proof. done. Qed.

Lemma forEach_app {A St} (f : St → A → option St) l1 l2 s :
  forEach f (l1 ++ l2) s = s' ← forEach f l1 s; forEach f l2 s'.
Proof.
  revert s. induction l1 as [|a l1 IH]; intros s; simpl; [done|].
  destruct (f s a) as [s1|]; simpl; [apply IH | done].
Qed.

(** A loop invariant indexed by the part of the list already processed. *)
Lemma forEach_invariant {A St} (f : St → A → option St)
    (P : list A → St → Prop) l s :
  P [] s →
  (∀ pre a post s, l = pre ++ a :: post → P pre s →
     ∃ s', f s a = Some s' ∧ P (pre ++ [a]) s') →
  ∃ s', forEach f l s = Some s' ∧ P l s'.
Proof.
  intros H0 Hstep.
  cut (∀ post pre s, l = pre ++ post → P pre s →
         ∃ s', forEach f post s = Some s' ∧ P l s').
  { intros Hcut. by apply (Hcut l [] s). }
  induction post as [|a post IH]; intros pre s1 Hl HP; simpl.
  - exists s1. rewrite app_nil_r in Hl. by subst.
  - destruct (Hstep pre a post s1 Hl HP) as (s2 & -> & HP2). simpl.
    apply (IH (pre ++ [a])); [|done]. by rewrite <-app_assoc.
Qed.

(** The invariant that does not look at the position. *)
Lemma forEach_preserves {A St} (f : St → A → option St) (P : St → Prop) l s :
  P s →
  (∀ a s, a ∈ l → P s → ∃ s', f s a = Some s' ∧ P s') →
  ∃ s', forEach f l s = Some s' ∧ P s'.
Proof.
  intros H0 Hstep. apply (forEach_invariant f (λ _, P)); [done|].
  intros pre a post s1 -> HP. apply Hstep; [|done]. rewrite elem_of_app, elem_of_cons. auto.
Qed.

Lemma sumV_cons a l : sumV (a :: l) = a + sumV l.
Proof. done. Qed.

Lemma sumV_app l1 l2 : sumV (l1 ++ l2) = sumV l1 + sumV l2.
Proof.
  induction l1 as [|a l1 IH]; simpl; [by rewrite Qcplus_0_l|].
  rewrite IH. ring.
Qed.

Lemma sumV_insert (l : list V) i o a :
  l !! i = Some o → sumV (<[i:=a]> l) = sumV l - o + a.
Proof.
  revert i. induction l as [|b l IH]; intros [|i] Hi; simplify_eq/=.
  - ring.
  - rewrite (IH _ Hi). ring.
Qed.

(** ** louvainChangeCommunity *)

Lemma louvainChangeCommunity_eq vcom ctot x u c vtot d td tu :
  vcom !! u = Some d → ctot !! d = Some td → vtot !! u = Some tu →
  (c < length ctot)%nat →
  ∃ tc, <[d:=td - tu]> ctot !! c = Some tc ∧
    louvainChangeCommunity vcom ctot x u c vtot
    = Some (<[u:=c]> vcom, <[c:=tc + tu]> (<[d:=td - tu]> ctot)).
Proof.
  intros Hd Htd Htu Hc.
  assert (d < length ctot)%nat as Hdl by by eapply lookup_lt_Some.
  assert (u < length vcom)%nat as Hul by by eapply lookup_lt_Some.
  assert (c < length (<[d:=(td - tu)%Qc]> ctot))%nat as Hcl
    by by rewrite length_insert.
  destruct (lookup_lt_is_Some_2 _ _ Hcl) as [tc Htc].
  exists tc. split; [done|].
  unfold louvainChangeCommunity, vget. rewrite Hd. simpl. rewrite Htd. simpl.
  rewrite Htu. simpl. rewrite (vset_lt _ _ _ Hdl). simpl. rewrite Htc. simpl.
  rewrite (vset_lt _ _ _ Hcl). simpl.
  by rewrite (vset_lt _ _ _ Hul).
Qed.

(** In exact arithmetic a call of louvainChangeCommunity inside the vectors
    keeps the sum of ctot, changes no entry of ctot besides those of the old
    community of u and of c, and changes no entry of vcom besides that of
    u. *)
Theorem louvainChangeCommunity_frame vcom ctot x u c vtot d :
  vcom !! u = Some d → (d < length ctot)%nat → (c < length ctot)%nat →
  (u < length vtot)%nat →
  ∃ vcom' ctot',
    louvainChangeCommunity vcom ctot x u c vtot = Some (vcom', ctot') ∧
    sumV ctot' = sumV ctot ∧
    (∀ k, k ≠ d → k ≠ c → ctot' !! k = ctot !! k) ∧
    (∀ k, k ≠ u → vcom' !! k = vcom !! k) ∧
    length ctot' = length ctot ∧ length vcom' = length vcom.
Proof.
  intros Hd Hdl Hc Hul.
  destruct (lookup_lt_is_Some_2 ctot d Hdl) as [td Htd].
  destruct (lookup_lt_is_Some_2 vtot u Hul) as [tu Htu].
  destruct (louvainChangeCommunity_eq vcom ctot x u c vtot d td tu)
    as (tc & Htc & ->); try done.
  eexists _, _. split; [done|]. repeat split.
  - rewrite (sumV_insert _ _ _ _ Htc), (sumV_insert _ _ _ _ Htd).
    destruct (decide (c = d)) as [->|Hne].
    + rewrite list_lookup_insert_eq in Htc by done. simplify_eq. ring.
    + rewrite list_lookup_insert_ne in Htc by done.
      ring.
  - intros k Hkd Hkc. by rewrite !list_lookup_insert_ne.
  - intros k Hk. by rewrite list_lookup_insert_ne.
  - by rewrite !length_insert.
  - by rewrite length_insert.
Qed.

(** C10 at a concrete call: vertex 1 of the path moves to community 2. *)
Lemma louvainChangeCommunity_frame_witness :
  ∃ vcom' ctot',
    louvainChangeCommunity vcomPath ctotPath gPath 1 2 vtotPath
      = Some (vcom', ctot') ∧
    sumV ctot' = sumV ctotPath ∧
    (∀ k, k ≠ 1%nat → k ≠ 2%nat → ctot' !! k = ctotPath !! k) ∧
    (∀ k, k ≠ 1%nat → vcom' !! k = vcomPath !! k) ∧
    length ctot' = length ctotPath ∧ length vcom' = length vcomPath.
Proof.
  apply (louvainChangeCommunity_frame vcomPath ctotPath gPath 1 2 vtotPath
           1%nat).
  - reflexivity.
  - simpl. lia.
  - simpl. lia.
  - simpl. lia.
Defined.

(** ** The live keys *)

Lemma vertexKeys_NoDup x : NoDup (vertexKeys x).
Proof. apply list.NoDup_filter, NoDup_seq. Qed.

Lemma elem_of_vertexKeys x u : u ∈ vertexKeys x ↔ hasVertex x u = true.
Proof.
  unfold vertexKeys. rewrite list_elem_of_filter, elem_of_seq.
  split; [by intros [? _]|]. intros Hu. split; [done|].
  unfold hasVertex in Hu. destruct (adj x !! u) eqn:E; [|done].
  apply lookup_lt_Some in E. unfold span. lia.
Qed.

Lemma vertexKeys_lt x u : u ∈ vertexKeys x → (u < span x)%nat.
Proof.
  unfold vertexKeys. rewrite list_elem_of_filter, elem_of_seq. lia.
Qed.

(** ** Community weights under a move *)

Section Weights.

Variable f : K → V.

Lemma weightIn_cons vcom v l k :
  weightIn f vcom (v :: l) k
  = (if decide (vcom !! v = Some k) then f v else 0) + weightIn f vcom l k.
Proof.
  unfold weightIn. rewrite filter_cons.
  case_decide; [done|]. by rewrite Qcplus_0_l.
Qed.

Lemma weightIn_insert_notin vcom l u c k :
  u ∉ l → weightIn f (<[u:=c]> vcom) l k = weightIn f vcom l k.
Proof.
  induction l as [|v l IH]; [done|].
  rewrite not_elem_of_cons. intros [Hne Hl].
  rewrite !weightIn_cons, IH by done.
  by rewrite list_lookup_insert_ne.
Qed.

Lemma weightIn_insert vcom l u c d k :
  NoDup l → u ∈ l → vcom !! u = Some d →
  weightIn f (<[u:=c]> vcom) l k
  = weightIn f vcom l k - (if decide (d = k) then f u else 0)
    + (if decide (c = k) then f u else 0).
Proof.
  intros Hnd Hu Hd. assert (u < length vcom)%nat as Hul
    by by eapply lookup_lt_Some.
  induction Hnd as [|v l Hv Hnd IH]; [by apply elem_of_nil in Hu|].
  rewrite !weightIn_cons. apply elem_of_cons in Hu as [->|Hu].
  - rewrite weightIn_insert_notin by done.
    rewrite list_lookup_insert_eq, Hd by done.
    repeat case_decide; simplify_eq; ring.
  - rewrite IH by done. rewrite list_lookup_insert_ne by (by intros ->).
    ring.
Qed.

Lemma weightIn_id l k :
  NoDup l →
  sumV (f <$> filter (λ v, v = k) l) = if decide (k ∈ l) then f k else 0.
Proof.
  induction 1 as [|v l Hv Hnd IH]; [done|].
  rewrite filter_cons. destruct (decide (v = k)) as [->|Hvk].
  - rewrite fmap_cons, sumV_cons, IH. rewrite decide_False by done.
    rewrite decide_True by (by left). ring.
  - rewrite IH. destruct (decide (k ∈ l)) as [Hk|Hk].
    + rewrite decide_True; [done|by right].
    + rewrite decide_False; [done|].
      rewrite elem_of_cons. by intros [->|?].
Qed.

End Weights.

Lemma filter_ext_elem {A} (P Q : A → Prop) `{!∀ a, Decision (P a)}
    `{!∀ a, Decision (Q a)} (l : list A) :
  (∀ a, a ∈ l → P a ↔ Q a) → filter P l = filter Q l.
Proof.
  induction l as [|a l IH]; intros Hext; [done|].
  rewrite !filter_cons, IH by (intros b Hb; apply Hext; by right).
  apply decide_ext, Hext. by left.
Qed.

(** ** louvainInitialize *)

Lemma louvainInitialize_spec vcom ctot x vtot :
  length vcom = span x → length ctot = span x → length vtot = span x →
  ∃ vcom' ctot',
    louvainInitialize vcom ctot x vtot = Some (vcom', ctot') ∧
    length vcom' = span x ∧ length ctot' = span x ∧
    (∀ u, u ∈ vertexKeys x → vcom' !! u = Some u ∧ ctot' !! u = vtot !! u) ∧
    (∀ u, u ∉ vertexKeys x → vcom' !! u = vcom !! u ∧ ctot' !! u = ctot !! u).
Proof.
  intros Hvc Hct Hvt. unfold louvainInitialize.
  edestruct (forEach_invariant
    (λ '(vcom, ctot) u,
       vcom ← vset vcom u u; tu ← vget vtot u; ctot ← vset ctot u tu;
       Some (vcom, ctot))
    (λ pre '(vcom', ctot'),
       length vcom' = span x ∧ length ctot' = span x ∧
       (∀ u, u ∈ pre → vcom' !! u = Some u ∧ ctot' !! u = vtot !! u) ∧
       (∀ u, u ∉ pre → vcom' !! u = vcom !! u ∧ ctot' !! u = ctot !! u))
    (vertexKeys x) (vcom, ctot)) as ([vcom' ctot'] & Heq & HP).
  - split_and!; try done. intros u Hu. by apply elem_of_nil in Hu.
  - intros pre a post [vc ct] Hl (Hl1 & Hl2 & Hin & Hout).
    assert (a < span x)%nat as Ha.
    { apply vertexKeys_lt. rewrite Hl, elem_of_app, elem_of_cons. auto. }
    destruct (lookup_lt_is_Some_2 vtot a) as [tu Htu]; [lia|].
    rewrite vset_lt by lia. simpl. unfold vget. rewrite Htu. simpl.
    rewrite vset_lt by lia. simpl. eexists. split; [done|]. simpl.
    rewrite !length_insert. split_and!; try done.
    + intros u. rewrite elem_of_app, elem_of_cons, elem_of_nil.
      intros Hu. destruct (decide (u = a)) as [->|Hne].
      * rewrite !list_lookup_insert_eq by lia. done.
      * rewrite !list_lookup_insert_ne by done. apply Hin. tauto.
    + intros u. rewrite elem_of_app, elem_of_cons, elem_of_nil. intros Hu.
      rewrite !list_lookup_insert_ne by (intros ->; tauto).
      apply Hout. tauto.
  - exists vcom', ctot'. by split.
Qed.

Lemma louvainInitialize_levelInv vcom x vtot :
  length vcom = span x → length vtot = span x →
  ∃ s, louvainInitialize vcom (replicate (span x) 0) x vtot = Some s ∧
       levelInv x vtot s.
Proof.
  intros Hvc Hvt.
  destruct (louvainInitialize_spec vcom (replicate (span x) 0) x vtot)
    as (vcom' & ctot' & -> & Hl1 & Hl2 & Hin & Hout);
    [done|by rewrite length_replicate|done|].
  eexists. split; [done|]. unfold levelInv. simpl. split_and!; try done.
  - intros u Hu. exists u. split; [by apply Hin|by apply vertexKeys_lt].
  - intros c Hc. unfold communityWeight, weightIn.
    rewrite (filter_ext_elem _ (λ u, u = c)).
    2:{ intros u Hu. destruct (Hin u Hu) as [-> _].
        split; [by intros [= ->]|by intros ->]. }
    rewrite weightIn_id by apply vertexKeys_NoDup.
    destruct (decide (c ∈ vertexKeys x)) as [Hlive|Hdead].
    + destruct (Hin c Hlive) as [_ ->].
      destruct (lookup_lt_is_Some_2 vtot c) as [t ->]; [lia|done].
    + destruct (Hout c Hdead) as [_ ->]. by apply lookup_replicate_2.
Qed.

Lemma louvainChangeCommunity_levelInv x vtot s u c :
  length vtot = span x → levelInv x vtot s →
  hasVertex x u = true → (c < span x)%nat →
  ∃ s', louvainChangeCommunity s.1 s.2 x u c vtot = Some s' ∧
        levelInv x vtot s'.
Proof.
  intros Hvt (Hl1 & Hl2 & Hcom & Hw) Hu Hc. destruct s as [vcom ctot].
  simpl in *. apply elem_of_vertexKeys in Hu.
  destruct (Hcom u Hu) as (d & Hd & Hdl).
  pose proof (vertexKeys_lt x u Hu) as Hul.
  destruct (lookup_lt_is_Some_2 vtot u) as [tu Htu]; [lia|].
  pose proof (Hw d Hdl) as Htd.
  destruct (louvainChangeCommunity_eq vcom ctot x u c vtot d
              (communityWeight x vcom vtot d) tu)
    as (tc & Htc & ->); [done|done|done|lia|].
  eexists. split; [done|]. unfold levelInv. simpl.
  rewrite !length_insert. split_and!; try done.
  - intros v Hv. destruct (decide (v = u)) as [->|Hne].
    + exists c. by rewrite list_lookup_insert_eq by lia.
    + rewrite list_lookup_insert_ne by done. by apply Hcom.
  - intros k Hk. unfold communityWeight.
    rewrite (weightIn_insert _ vcom _ u c d k (vertexKeys_NoDup x) Hu Hd).
    assert (default 0 (vtot !! u) = tu) as -> by by rewrite Htu.
    unfold communityWeight in *.
    destruct (decide (c = k)) as [->|Hck]; destruct (decide (d = k)) as [->|Hdk];
      cbv iota.
    + rewrite list_lookup_insert_eq by (rewrite length_insert; lia).
      rewrite list_lookup_insert_eq in Htc by lia. simplify_eq.
      f_equal; ring.
    + rewrite list_lookup_insert_eq by (rewrite length_insert; lia).
      rewrite list_lookup_insert_ne in Htc by done.
      rewrite (Hw k Hk) in Htc. simplify_eq. f_equal; ring.
    + rewrite list_lookup_insert_ne by done.
      rewrite list_lookup_insert_eq by lia. f_equal; ring.
    + rewrite !list_lookup_insert_ne by done. rewrite (Hw k Hk).
      f_equal; ring.
Qed.

(** C3 (amended): in exact arithmetic (V the rationals), after
    louvainInitialize (on a zero-initialised ctot, as its documentation
    asks) and any sequence of louvainChangeCommunity calls that move a live
    vertex to a community id below the span, ctot[c] is the sum of vtot[u]
    over the live vertices u with vcom[u] = c, for every community id c. *)
Theorem community_weight_consistency x vcom0 vtot moves :
  length vcom0 = span x → length vtot = span x →
  Forall (λ m, hasVertex x m.1 = true ∧ (m.2 < span x)%nat) moves →
  ∃ vcom1 ctot1 vcom ctot,
    louvainInitialize vcom0 (replicate (span x) 0) x vtot
      = Some (vcom1, ctot1) ∧
    louvainChangeCommunities x vtot moves (vcom1, ctot1)
      = Some (vcom, ctot) ∧
    ∀ c, (c < span x)%nat →
         ctot !! c = Some (communityWeight x vcom vtot c).
Proof.
  intros Hvc Hvt Hmoves.
  destruct (louvainInitialize_levelInv vcom0 x vtot Hvc Hvt)
    as ([vcom1 ctot1] & Hinit & Hinv).
  exists vcom1, ctot1. unfold louvainChangeCommunities.
  edestruct (forEach_preserves
    (λ '(vcom, ctot) '(u, c), louvainChangeCommunity vcom ctot x u c vtot)
    (levelInv x vtot) moves (vcom1, ctot1)) as ([vcom ctot] & Hrun & Hend).
  - done.
  - intros [u c] [vc ct] Hin Hs. rewrite list.Forall_forall in Hmoves.
    destruct (Hmoves _ Hin) as [Hu Hc].
    by apply (louvainChangeCommunity_levelInv x vtot (vc, ct) u c).
  - exists vcom, ctot. split_and!; try done. apply Hend.
Qed.

Lemma community_weight_consistency_witness :
  ∃ vcom1 ctot1 vcom ctot,
    louvainInitialize (replicate 4 0%nat) (replicate (span gPath) 0) gPath
      vtotPath = Some (vcom1, ctot1) ∧
    louvainChangeCommunities gPath vtotPath [(1, 2); (3, 0); (1, 1)]%nat
      (vcom1, ctot1) = Some (vcom, ctot) ∧
    ∀ c, (c < span gPath)%nat →
         ctot !! c = Some (communityWeight gPath vcom vtotPath c).
Proof.
  apply (community_weight_consistency gPath (replicate 4 0%nat) vtotPath
           [(1, 2); (3, 0); (1, 1)]%nat).
  - reflexivity.
  - reflexivity.
  - repeat constructor; unfold span, gPath; simpl; lia.
Defined.

(** ** louvainChooseCommunity *)

Section Choose.

Variable dm : V → V → V → V → V → V → V → V.
Variables (u d : K) (vtot ctot vcout : list V) (M R : V).

Local Abbreviation g := (gain dm u d vtot ctot vcout M R).
Local Abbreviation step := (louvainChooseStep dm false u d vtot ctot vcout M R).

Lemma louvainChooseStep_skip s : step s d = Some s.
Proof.
  unfold louvainChooseStep. destruct s as [cmax emax].
  by rewrite bool_decide_eq_true_2.
Qed.

Lemma louvainChooseStep_gain s c e :
  c ≠ d → g c = Some e →
  step s c = Some (if decide (s.2 < e) then (c, e) else s).
Proof.
  intros Hc He. unfold louvainChooseStep, gain in *.
  destruct s as [cmax emax]. rewrite bool_decide_eq_false_2 by done.
  simpl in *.
  destruct (vget vcout c) as [oc|]; [|done]. simpl in *.
  destruct (vget vcout d) as [od|]; [|done]. simpl in *.
  destruct (vget vtot u) as [tu|]; [|done]. simpl in *.
  destruct (vget ctot c) as [tc|]; [|done]. simpl in *.
  destruct (vget ctot d) as [td|]; [|done]. simpl in *.
  simplify_eq. by case_decide.
Qed.

Lemma gain_is_Some c :
  (u < length vtot)%nat → (d < length vcout)%nat → (d < length ctot)%nat →
  (c < length vcout)%nat → (c < length ctot)%nat → is_Some (g c).
Proof.
  intros Hu Hd1 Hd2 Hc1 Hc2. unfold gain.
  destruct (vget_lt vcout c Hc1) as [? ->].
  destruct (vget_lt vcout d Hd1) as [? ->].
  destruct (vget_lt vtot u Hu) as [? ->].
  destruct (vget_lt ctot c Hc2) as [? ->].
  destruct (vget_lt ctot d Hd2) as [? ->]. by eexists.
Qed.

(** The loop of the choice, under any invariant that the two kinds of
    step keep. *)
Lemma louvainChoose_invariant (P : list K → K * V → Prop) vcs :
  (∀ c, c ∈ vcs → c ≠ d → is_Some (g c)) →
  P [] (0%nat, 0) →
  (∀ pre s, P pre s → P (pre ++ [d]) s) →
  (∀ pre s c e, c ≠ d → g c = Some e → P pre s →
     P (pre ++ [c]) (if decide (s.2 < e) then (c, e) else s)) →
  ∃ r, forEach step vcs (0%nat, 0) = Some r ∧ P vcs r.
Proof.
  intros Hg H0 Hskip Hstep. apply forEach_invariant; [done|].
  intros pre c post s -> HP. destruct (decide (c = d)) as [->|Hne].
  - rewrite louvainChooseStep_skip. eauto.
  - destruct (Hg c) as [e He]; [|done|].
    { rewrite elem_of_app, elem_of_cons. auto. }
    rewrite (louvainChooseStep_gain s c e) by done. eauto.
Qed.

Lemma filter_snoc_ne (pre : list K) c :
  filter (λ c, c ≠ d) (pre ++ [c])
  = filter (λ c, c ≠ d) pre ++ (if decide (c = d) then [] else [c]).
Proof.
  rewrite list.filter_app, filter_cons, filter_nil.
  destruct (decide (c = d)) as [->|Hne].
  - by rewrite decide_False by naive_solver.
  - by rewrite decide_True by done.
Qed.

Local Abbreviation chooseBounds := (chooseBounds u d vtot ctot vcout).

Lemma chooseBounds_gain vcs c :
  chooseBounds vcs → c ∈ vcs → is_Some (g c).
Proof.
  intros (Hu & Hd1 & Hd2 & Hvcs) Hc. rewrite list.Forall_forall in Hvcs.
  destruct (Hvcs c Hc). by apply gain_is_Some.
Qed.

(** What the result is when it is not the initial pair. *)
Lemma louvainChoose_positive vcs :
  chooseBounds vcs →
  ∃ r, forEach step vcs (0%nat, 0) = Some r ∧
       (r = (0%nat, 0) ∨
        (0 < r.2 ∧ r.1 ≠ d ∧ r.1 ∈ vcs ∧ g r.1 = Some r.2)).
Proof.
  intros Hb.
  apply (louvainChoose_invariant
    (λ pre r, r = (0%nat, 0) ∨
              (0 < r.2 ∧ r.1 ≠ d ∧ r.1 ∈ pre ∧ g r.1 = Some r.2))).
  - intros c Hc _. by eapply chooseBounds_gain.
  - by left.
  - intros pre s [->|(H1 & H2 & H3 & H4)]; [by left|right].
    split_and!; try done. rewrite elem_of_app. by left.
  - intros pre s c e Hc He Hs. case_decide as Hlt.
    + right. simpl. split_and!; try done.
      * destruct Hs as [->|(H1 & _)]; [done|]. by etrans.
      * rewrite elem_of_app, elem_of_cons. auto.
    + destruct Hs as [->|(H1 & H2 & H3 & H4)]; [by left|right].
      split_and!; try done. rewrite elem_of_app. by left.
Qed.

(** The first maximum, or the initial pair when no gain is positive. *)
Lemma louvainChoose_firstMaximal vcs :
  chooseBounds vcs →
  ∃ r, forEach step vcs (0%nat, 0) = Some r ∧
       ((r = (0%nat, 0) ∧
         ∀ c e, c ∈ vcs → c ≠ d → g c = Some e → e ≤ 0) ∨
        (0 < r.2 ∧ firstMaximal g d vcs r)).
Proof.
  intros Hb.
  apply (louvainChoose_invariant
    (λ pre r, (r = (0%nat, 0) ∧
               ∀ c e, c ∈ pre → c ≠ d → g c = Some e → e ≤ 0) ∨
              (0 < r.2 ∧ firstMaximal g d pre r))).
  - intros c Hc _. by eapply chooseBounds_gain.
  - left. split; [done|]. intros c e Hc. by apply elem_of_nil in Hc.
  - intros pre s [[-> Hs]|[Hpos Hs]]; [left|right].
    + split; [done|]. intros c e. rewrite elem_of_app, elem_of_cons.
      intros [Hc|[->|Hc]] Hne; [by eapply Hs|done|by apply elem_of_nil in Hc].
    + split; [done|]. unfold firstMaximal in *.
      rewrite filter_snoc_ne, decide_True, app_nil_r by done. done.
  - intros pre s c e Hc He Hs. case_decide as Hlt.
    + right. simpl. assert (0 < e) as Hpos.
      { destruct Hs as [[-> _]|[Hpos _]]; [done|by etrans]. }
      split; [done|]. unfold firstMaximal in *.
      rewrite filter_snoc_ne, decide_False by done. simpl.
      exists (length (filter (λ c, c ≠ d) pre)).
      split_and!; [by rewrite list_lookup_middle|done|].
      intros j c' e' Hj He'.
      destruct (decide (j < length (filter (λ c, c ≠ d) pre))%nat)
        as [Hjl|Hjl].
      * rewrite lookup_app_l in Hj by done.
        assert (e' ≤ s.2) as Hle.
        { destruct Hs as [[-> Hs]|[_ (i & _ & _ & Hs)]].
          - simpl.
            apply list_elem_of_lookup_2, list_elem_of_filter in Hj
              as [Hne Hin]. by eapply Hs.
          - by eapply Hs. }
        split; [|intros _]; [apply Qclt_le_weak|];
          by eapply Qcle_lt_trans.
      * rewrite lookup_app_r in Hj by lia.
        destruct (j - length (filter (λ c, c ≠ d) pre))%nat eqn:Ej;
          [|by destruct n]. simpl in Hj. simplify_eq.
        split; [done|lia].
    + apply Qcnot_lt_le in Hlt.
      destruct Hs as [[-> Hs]|[Hpos (i & Hi & Hgi & Hs)]]; [left|right].
      * split; [done|]. intros c' e'. rewrite elem_of_app, elem_of_cons.
        intros [Hc'|[->|Hc']] Hne He'; [by eapply Hs| |by apply elem_of_nil in Hc'].
        by simplify_eq.
      * split; [done|]. unfold firstMaximal.
        rewrite filter_snoc_ne, decide_False by done. exists i.
        pose proof (lookup_lt_Some _ _ _ Hi) as Hil.
        split_and!; [by rewrite lookup_app_l|done|].
        intros j c' e' Hj He'.
        destruct (decide (j < length (filter (λ c, c ≠ d) pre))%nat)
          as [Hjl|Hjl].
        -- rewrite lookup_app_l in Hj by done. by eapply Hs.
        -- rewrite lookup_app_r in Hj by lia.
           destruct (j - length (filter (λ c, c ≠ d) pre))%nat eqn:Ej;
             [|by destruct n]. simpl in Hj. simplify_eq.
           split; [done|lia].
Qed.

(** Entries of [vcs] equal to [d] play no part in the choice. *)
Lemma louvainChoose_filter vcs s :
  forEach step vcs s = forEach step (filter (λ c, c ≠ d) vcs) s.
Proof.
  revert s. induction vcs as [|c vcs IH]; intros s; [done|].
  rewrite filter_cons. destruct (decide (c = d)) as [->|Hne].
  - rewrite decide_False by naive_solver. simpl.
    rewrite louvainChooseStep_skip. simpl. apply IH.
  - rewrite decide_True by done. simpl.
    destruct (step s c); simpl; [apply IH|done].
Qed.

End Choose.

(** C5 (amended): with SELF=false the gain is looked at only for the entries
    of vcs other than vcom[u]; the result is the first entry of maximal gain
    when that gain is strictly positive, and the initial pair (0, 0) when no
    candidate has a strictly positive gain. *)
Theorem louvainChooseCommunity_first_positive_maximum
    dm x u vcom vtot ctot vcs vcout M R d :
  vcom !! u = Some d → chooseBounds u d vtot ctot vcout vcs →
  ∃ r,
    louvainChooseCommunity dm false x u vcom vtot ctot vcs vcout M R
      = Some r ∧
    louvainChooseCommunity dm false x u vcom vtot ctot
      (filter (λ c, c ≠ d) vcs) vcout M R = Some r ∧
    ((r = (0%nat, 0) ∧
      ∀ c e, c ∈ vcs → c ≠ d →
             gain dm u d vtot ctot vcout M R c = Some e → e ≤ 0) ∨
     (0 < r.2 ∧ firstMaximal (gain dm u d vtot ctot vcout M R) d vcs r)).
Proof.
  intros Hd Hb.
  destruct (louvainChoose_firstMaximal dm u d vtot ctot vcout M R vcs Hb)
    as (r & Hr & Hspec).
  exists r. unfold louvainChooseCommunity, vget. rewrite Hd. simpl.
  by rewrite <-louvainChoose_filter.
Qed.

Lemma louvainChooseCommunity_first_positive_maximum_witness :
  ∃ r,
    louvainChooseCommunity deltaModularity false gPath 1 vcomPath vtotPath
      ctotPath [2%nat] [0; 0; 1; 0] MPath 1 = Some r ∧
    louvainChooseCommunity deltaModularity false gPath 1 vcomPath vtotPath
      ctotPath (filter (λ c, c ≠ 1%nat) [2%nat]) [0; 0; 1; 0] MPath 1
      = Some r ∧
    ((r = (0%nat, 0) ∧
      ∀ c e, c ∈ [2%nat] → c ≠ 1%nat →
             gain deltaModularity 1 1 vtotPath ctotPath [0; 0; 1; 0] MPath 1 c
             = Some e → e ≤ 0) ∨
     (0 < r.2 ∧
      firstMaximal (gain deltaModularity 1 1 vtotPath ctotPath [0; 0; 1; 0]
                         MPath 1) 1 [2%nat] r)).
Proof.
  apply (louvainChooseCommunity_first_positive_maximum deltaModularity
           gPath 1 vcomPath vtotPath ctotPath [2%nat] [0; 0; 1; 0]
           MPath 1 1%nat).
  - reflexivity.
  - unfold chooseBounds. simpl. repeat constructor; lia.
Defined.

(** C5 as worded fails: at vertex 2 of the path the only candidate is
    community 1, of gain -1/6, and the pair returned is (0, 0), which names
    no candidate. *)
Lemma louvainChooseCommunity_not_a_candidate :
  louvainScanCommunities false [] (replicate 4 0) gPath 2 vcomPath
    = Some (vcsPath2, vcoutPath2) ∧
  gain deltaModularity 2 2 vtotPath ctotPath vcoutPath2 MPath 1 1
    = Some (q (-1) 6) ∧
  louvainChooseCommunity deltaModularity false gPath 2 vcomPath vtotPath
    ctotPath vcsPath2 vcoutPath2 MPath 1 = Some (0%nat, 0) ∧
  ¬ firstMaximal (gain deltaModularity 2 2 vtotPath ctotPath vcoutPath2
                       MPath 1) 2 vcsPath2 (0%nat, 0).
Proof.
  split_and!; [compute_done..|].
  intros (i & Hi & _). by destruct i as [|[|i]].
Qed.

(** ** louvainScanCommunities *)

Lemma louvainScanEdge_eq SELF u vcom vcs vcout v w c o :
  negb SELF && bool_decide (u = v) = false →
  vcom !! v = Some c → vcout !! c = Some o →
  louvainScanEdge SELF u vcom (vcs, vcout) (v, w)
  = Some (if decide (o = 0) then vcs ++ [c] else vcs, <[c:=o + w]> vcout).
Proof.
  intros Hskip Hc Ho. unfold louvainScanEdge, vget. rewrite Hskip, Hc. simpl.
  rewrite Ho. simpl.
  by rewrite vset_lt by by eapply lookup_lt_Some.
Qed.

(** One edge of strictly positive weight keeps the invariant of the scan. *)
Lemma louvainScanEdge_scanInv SELF u vcom n s v w c :
  vcom !! v = Some c → (c < n)%nat → 0 < w → scanInv n s →
  ∃ s', louvainScanEdge SELF u vcom s (v, w) = Some s' ∧ scanInv n s'.
Proof.
  intros Hc Hcn Hw Hs.
  destruct (negb SELF && bool_decide (u = v)) eqn:Hskip.
  { exists s. split; [|done]. destruct s as [vcs vcout].
    unfold louvainScanEdge. by rewrite Hskip. }
  destruct s as [vcs vcout]. destruct Hs as (Hlen & Hnd & Hpos & Hsync).
  simpl in Hlen, Hnd, Hpos, Hsync.
  destruct (lookup_lt_is_Some_2 vcout c) as [o Ho]; [lia|].
  assert (0 ≤ o) as Ho0.
  { rewrite list.Forall_forall in Hpos.
    by eapply Hpos, list_elem_of_lookup_2. }
  assert (0 < o + w) as Hsum by by apply Qcplus_nonneg_pos.
  rewrite (louvainScanEdge_eq SELF u vcom vcs vcout v w c o) by done.
  eexists. split; [done|]. unfold scanInv. simpl. split_and!.
  - by rewrite length_insert.
  - destruct (decide (o = 0)) as [Hz|Hz]; [|done].
    rewrite list.NoDup_app. split_and!; [done| |].
    + intros k Hk. rewrite elem_of_cons, elem_of_nil. intros [->|[]].
      apply Hsync in Hk as (o' & Ho' & Hne). by simplify_eq.
    + apply NoDup_singleton.
  - apply list.Forall_insert; [done|]. by apply Qclt_le_weak.
  - intros k. destruct (decide (k = c)) as [->|Hne].
    + rewrite list_lookup_insert_eq by lia. split.
      * intros _. eexists. split; [done|].
        intros Heq. rewrite Heq in Hsum. by apply Qclt_not_eq in Hsum.
      * intros _. destruct (decide (o = 0)) as [Hz|Hz].
        -- rewrite elem_of_app, elem_of_cons. auto.
        -- apply Hsync. eauto.
    + rewrite list_lookup_insert_ne by done. rewrite <-Hsync.
      destruct (decide (o = 0)) as [Hz|Hz]; [|done].
      rewrite elem_of_app, elem_of_cons, elem_of_nil. tauto.
Qed.

Lemma louvainScanCommunities_scanInv SELF x u vcom n s :
  (∀ v w, (v, w) ∈ edges x u → 0 < w) →
  (∀ v w, (v, w) ∈ edges x u → ∃ c, vcom !! v = Some c ∧ (c < n)%nat) →
  scanInv n s →
  ∃ s', louvainScanCommunities SELF s.1 s.2 x u vcom = Some s' ∧
        scanInv n s'.
Proof.
  intros Hpos Hcom Hs. unfold louvainScanCommunities.
  destruct s as [vcs vcout]. simpl.
  apply forEach_preserves; [done|].
  intros [v w] s Hin Hinv. destruct (Hcom v w Hin) as (c & Hc & Hcn).
  eapply louvainScanEdge_scanInv; eauto.
Qed.

(** C7 (amended): on a graph whose edges at u have strictly positive
    weights, the scan of u from cleared buffers (empty vcs, vcout all zero)
    leaves in vcs distinct community ids, and c is in vcs exactly when
    vcout[c] is not zero. *)
Theorem louvainScanCommunities_sync SELF x u vcom n :
  (∀ v w, (v, w) ∈ edges x u → 0 < w) →
  (∀ v w, (v, w) ∈ edges x u → ∃ c, vcom !! v = Some c ∧ (c < n)%nat) →
  ∃ vcs vcout,
    louvainScanCommunities SELF [] (replicate n 0) x u vcom
      = Some (vcs, vcout) ∧
    NoDup vcs ∧ scanSync vcs vcout.
Proof.
  intros Hpos Hcom.
  destruct (louvainScanCommunities_scanInv SELF x u vcom n
              ([], replicate n 0) Hpos Hcom)
    as ([vcs vcout] & Hrun & Hlen & Hnd & _ & Hsync).
  - unfold scanInv. simpl. split_and!.
    + apply length_replicate.
    + constructor.
    + by apply list.Forall_replicate.
    + intros c. split; [by intros ?%elem_of_nil|].
      intros (o & Ho & Hne). by apply lookup_replicate in Ho as [-> _].
  - by exists vcs, vcout.
Qed.

Lemma louvainScanCommunities_sync_witness :
  ∃ vcs vcout,
    louvainScanCommunities false [] (replicate 4 0) gPath 2 vcomPath
      = Some (vcs, vcout) ∧
    NoDup vcs ∧ scanSync vcs vcout.
Proof.
  apply (louvainScanCommunities_sync false gPath 2 vcomPath 4).
  - intros v w. unfold edges, gPath. simpl.
    rewrite !elem_of_cons, elem_of_nil.
    intros [H|[H|[]]]; by simplify_eq.
  - intros v w. unfold edges, gPath. simpl.
    rewrite !elem_of_cons, elem_of_nil.
    intros [H|[H|[]]]; simplify_eq; eexists; (split; [reflexivity|lia]).
Defined.

(** C7 as worded fails for an edge of weight 0, which is nonnegative: the
    community of its end point is listed in vcs while its entry of vcout is
    still zero, and a second such edge lists it twice. *)
Lemma louvainScanCommunities_zero_weight :
  (∀ v w, (v, w) ∈ edges gZero2 0 → 0 ≤ w) ∧
  louvainScanCommunities false [] (replicate 3 0) gZero2 0 [0; 1; 1]%nat
    = Some ([1; 1]%nat, [0; 0; 0]) ∧
  ¬ NoDup [1; 1]%nat ∧ ¬ scanSync [1; 1]%nat [0; 0; 0].
Proof.
  split_and!.
  - intros v w. unfold edges, gZero2. simpl.
    rewrite !elem_of_cons, elem_of_nil.
    intros [H|[H|[]]]; by simplify_eq.
  - compute_done.
  - intros Hnd. apply list.NoDup_cons in Hnd as [Hnd _]. apply Hnd. by left.
  - intros Hsync. destruct (Hsync 1%nat) as [Hin _].
    destruct Hin as (o & Ho & Hne); [by left|]. by simplify_eq/=.
Qed.

(** ** louvainLookupCommunities *)

Lemma louvainLookupCommunities_spec (a vcom : list K) :
  Forall (λ v, v < length vcom)%nat a →
  ∃ a', louvainLookupCommunities a vcom = Some a' ∧
        length a' = length a ∧
        ∀ i v, a !! i = Some v → a' !! i = vcom !! v.
Proof.
  unfold louvainLookupCommunities.
  induction 1 as [|v a Hv Ha (a' & Heq & Hlen & Hget)].
  - exists []. by split_and!.
  - destruct (vget_lt vcom v Hv) as [c Hc].
    exists (c :: a'). split_and!.
    + simpl. rewrite Hc. simpl. fold (mapM (λ v, vget vcom v) a).
      by rewrite Heq.
    + simpl. by rewrite Hlen.
    + intros [|i] w Hw; simplify_eq/=; [done|by apply Hget].
Qed.

Lemma louvainLookupLevels_spec (levels : list (list K)) (a : list K) :
  Forall (λ v, is_Some (topCommunity levels v)) a →
  ∃ a', louvainLookupLevels a levels = Some a' ∧
        length a' = length a ∧
        ∀ i v, a !! i = Some v → a' !! i = topCommunity levels v.
Proof.
  revert a. induction levels as [|vcom levels IH]; intros a Ha.
  - exists a. by split_and!.
  - rewrite list.Forall_forall in Ha.
    destruct (louvainLookupCommunities_spec a vcom)
      as (a1 & Heq1 & Hlen1 & Hget1).
    { apply list.Forall_forall. intros v Hv.
      destruct (Ha v Hv) as [c Hc]. simpl in Hc.
      destruct (vget vcom v) as [c'|] eqn:E; [|done].
      by eapply lookup_lt_Some. }
    destruct (IH a1) as (a' & Heq & Hlen & Hget).
    { apply list.Forall_forall. intros c Hc.
      apply list_elem_of_lookup_1 in Hc as [i Hi].
      destruct (lookup_lt_is_Some_2 a i) as [v Hv].
      { rewrite <-Hlen1. by eapply lookup_lt_Some. }
      pose proof (Ha v (list_elem_of_lookup_2 _ _ _ Hv)) as Hs.
      simpl in Hs. unfold vget in Hs.
      rewrite <-(Hget1 i v Hv), Hi in Hs. done. }
    exists a'. split_and!.
    + unfold louvainLookupLevels in *. simpl. rewrite Heq1. done.
    + by rewrite Hlen.
    + intros i v Hv. simpl. unfold vget. rewrite <-(Hget1 i v Hv).
      destruct (lookup_lt_is_Some_2 a1 i) as [c Hc].
      { rewrite Hlen1. by eapply lookup_lt_Some. }
      rewrite Hc. simpl. by apply Hget.
Qed.

(** C8: when every entry of a is an index of vcom (and what it leads to is
    an index of the next level, and so on along [levels]), the lookup
    replaces a[i] by vcom[a[i]] and keeps the length of a; repeated over the
    levels it leaves at position i the top-level community of a[i]. *)
Theorem louvainLookupCommunities_lift (a vcom : list K)
    (levels : list (list K)) :
  Forall (λ v, is_Some (topCommunity (vcom :: levels) v)) a →
  ∃ a1 a',
    louvainLookupCommunities a vcom = Some a1 ∧
    length a1 = length a ∧
    (∀ i v, a !! i = Some v → a1 !! i = vcom !! v) ∧
    louvainLookupLevels a (vcom :: levels) = Some a' ∧
    length a' = length a ∧
    (∀ i v, a !! i = Some v → a' !! i = topCommunity (vcom :: levels) v).
Proof.
  intros Ha.
  destruct (louvainLookupCommunities_spec a vcom)
    as (a1 & Heq1 & Hlen1 & Hget1).
  { rewrite list.Forall_forall in Ha. apply list.Forall_forall. intros v Hv.
    destruct (Ha v Hv) as [c Hc]. simpl in Hc.
    destruct (vget vcom v) as [c'|] eqn:E; [|done].
    by eapply lookup_lt_Some. }
  destruct (louvainLookupLevels_spec (vcom :: levels) a Ha)
    as (a' & Heq & Hlen & Hget).
  by exists a1, a'.
Qed.

Lemma louvainLookupCommunities_lift_witness :
  ∃ a1 a',
    louvainLookupCommunities [0; 1; 2; 3]%nat [0; 1; 1; 3]%nat = Some a1 ∧
    length a1 = length [0; 1; 2; 3]%nat ∧
    (∀ i v, [0; 1; 2; 3]%nat !! i = Some v →
            a1 !! i = [0; 1; 1; 3]%nat !! v) ∧
    louvainLookupLevels [0; 1; 2; 3]%nat [[0; 1; 1; 3]; [0; 0; 2; 0]]%nat
      = Some a' ∧
    length a' = length [0; 1; 2; 3]%nat ∧
    (∀ i v, [0; 1; 2; 3]%nat !! i = Some v →
            a' !! i = topCommunity [[0; 1; 1; 3]; [0; 0; 2; 0]]%nat v).
Proof.
  apply (louvainLookupCommunities_lift [0; 1; 2; 3]%nat [0; 1; 1; 3]%nat
           [[0; 0; 2; 0]%nat]).
  repeat constructor; simpl; by eexists.
Defined.

(** From the identity over the leaves, position v ends with the top-level
    community of leaf v. *)
Lemma louvainLookupLevels_identity (n : nat) (levels : list (list K)) :
  (∀ v, (v < n)%nat → is_Some (topCommunity levels v)) →
  ∃ a', louvainLookupLevels (seq 0 n) levels = Some a' ∧
        length a' = n ∧
        ∀ v, (v < n)%nat → a' !! v = topCommunity levels v.
Proof.
  intros Hn.
  destruct (louvainLookupLevels_spec levels (seq 0 n))
    as (a' & Heq & Hlen & Hget).
  { apply list.Forall_forall. intros v Hv. apply Hn.
    apply elem_of_seq in Hv. lia. }
  exists a'. rewrite length_seq in Hlen. split_and!; try done.
  intros v Hv. apply Hget. by rewrite lookup_seq_lt.
Qed.

(** ** One visit of louvainMove *)

Lemma louvainClearScan_length (vcs : list K) (vcout : list V) :
  Forall (λ c, c < length vcout)%nat vcs →
  ∃ vcout', louvainClearScan vcs vcout = Some ([], vcout') ∧
            length vcout' = length vcout.
Proof.
  intros Hvcs. unfold louvainClearScan.
  destruct (forEach_preserves (λ vcout c, vset vcout c 0)
              (λ v, length v = length vcout) vcs vcout)
    as (vcout' & -> & Hlen); [done| |by exists vcout'].
  intros c v Hc Hv. rewrite list.Forall_forall in Hvcs.
  rewrite vset_lt by (rewrite Hv; by apply Hvcs).
  eexists. split; [done|]. by rewrite length_insert.
Qed.

Lemma louvainScanCommunities_bounds SELF x u (vcom vcs : list K)
    (vcout : list V) n :
  (∀ v w, (v, w) ∈ edges x u → ∃ c, vcom !! v = Some c ∧ (c < n)%nat) →
  length vcout = n → Forall (λ c, c < n)%nat vcs →
  ∃ vcs' vcout',
    louvainScanCommunities SELF vcs vcout x u vcom = Some (vcs', vcout') ∧
    length vcout' = n ∧ Forall (λ c, c < n)%nat vcs'.
Proof.
  intros Hcom Hlen Hvcs. unfold louvainScanCommunities.
  destruct (forEach_preserves (louvainScanEdge SELF u vcom)
              (λ s, length s.2 = n ∧ Forall (λ c, c < n)%nat s.1)
              (edges x u) (vcs, vcout))
    as ([vcs' vcout'] & -> & Hl & Hv); [done| |by exists vcs', vcout'].
  intros [v w] [vs vo] Hin [Hl Hv]. simpl in Hl, Hv.
  destruct (negb SELF && bool_decide (u = v)) eqn:Hskip.
  { exists (vs, vo). split; [|done]. unfold louvainScanEdge.
    by rewrite Hskip. }
  destruct (Hcom v w Hin) as (c & Hc & Hcn).
  destruct (lookup_lt_is_Some_2 vo c) as [o Ho]; [lia|].
  rewrite (louvainScanEdge_eq SELF u vcom vs vo v w c o) by done.
  eexists. split; [done|]. simpl. rewrite length_insert. split; [done|].
  destruct (decide (o = 0)); [|done].
  apply list.Forall_app. split; [done|]. by repeat constructor.
Qed.

Section Visit.

Variable dm : V → V → V → V → V → V → V → V.
Variables (x : Graph) (vtot : list V) (M R : V).

Lemma wfState_edges st u :
  wfGraph x → wfState x vtot st →
  ∀ v w, (v, w) ∈ edges x u →
         ∃ c, st_vcom st !! v = Some c ∧ (c < span x)%nat.
Proof.
  intros Hg Hst v w Hin. pose proof (Hg u v w Hin) as Hv.
  destruct (lookup_lt_is_Some_2 (st_vcom st) v) as [c Hc].
  { by rewrite (wf_vcom _ _ _ Hst). }
  exists c. split; [done|].
  pose proof (wf_vcom_lt _ _ _ Hst) as Hlt.
  rewrite list.Forall_forall in Hlt.
  by eapply Hlt, list_elem_of_lookup_2.
Qed.

(** What one visit does, from a well-formed state. *)
Lemma louvainMoveVisit_spec st u :
  wfGraph x → wfState x vtot st → (u < span x)%nat →
  ∃ c e d st',
    visitChoice dm x vtot M R st u = Some (c, e) ∧
    st_vcom st !! u = Some d ∧
    ((c, e) = (0%nat, 0) ∨ (0 < e ∧ c ≠ d)) ∧
    (c < span x)%nat ∧
    wfState x vtot st' ∧
    (∀ el, louvainMoveVisit dm x vtot M R (st, el) u = Some (st', el + e)) ∧
    (c = 0%nat → st_vcom st' = st_vcom st ∧ st_ctot st' = st_ctot st) ∧
    (c ≠ 0%nat →
       louvainChangeCommunity (st_vcom st) (st_ctot st) x u c vtot
       = Some (st_vcom st', st_ctot st')).
Proof.
  intros Hg Hst Hu. destruct st as [vcom ctot vcs vcout].
  destruct Hst as [Hvt Hvc Hvclt Hct Hvo Hvcs]. simpl in *.
  destruct (louvainClearScan_length vcs vcout) as (vcout0 & Hclear & Hl0).
  { by rewrite Hvo. }
  destruct (louvainScanCommunities_bounds false x u vcom [] vcout0 (span x))
    as (vcs1 & vcout1 & Hscan & Hl1 & Hvcs1); [|lia|done|].
  { apply (wfState_edges (mkMoveState vcom ctot vcs vcout)); by try split. }
  destruct (lookup_lt_is_Some_2 vcom u) as [d Hd]; [lia|].
  assert (d < span x)%nat as Hdl.
  { rewrite list.Forall_forall in Hvclt.
    by eapply Hvclt, list_elem_of_lookup_2. }
  destruct (louvainChoose_positive dm u d vtot ctot vcout1 M R vcs1)
    as ([c e] & Hchoose & Hres).
  { unfold chooseBounds. split_and!; try lia.
    eapply list.Forall_impl; [done|]. simpl. intros; lia. }
  assert (louvainChooseCommunity dm false x u vcom vtot ctot vcs1 vcout1
            M R = Some (c, e)) as Hchoose'.
  { unfold louvainChooseCommunity, vget. by rewrite Hd. }
  assert (c < span x)%nat as Hcl.
  { destruct Hres as [[= -> ->]|(_ & _ & Hin & _)]; [lia|].
    rewrite list.Forall_forall in Hvcs1. by apply Hvcs1. }
  assert (visitChoice dm x vtot M R (mkMoveState vcom ctot vcs vcout) u
          = Some (c, e)) as Hvisit.
  { unfold visitChoice. simpl. rewrite Hclear. simpl.
    rewrite Hscan. done. }
  assert ((c, e) = (0%nat, 0) ∨ (0 < e ∧ c ≠ d)) as Hres'.
  { destruct Hres as [?|(? & ? & _)]; auto. }
  destruct (decide (c = 0%nat)) as [Hc0|Hc0].
  - exists c, e, d, (mkMoveState vcom ctot vcs1 vcout1).
    split_and!; try done.
    intros el. simpl. rewrite Hclear. simpl. rewrite Hscan. simpl.
    rewrite Hchoose'. simpl. by rewrite decide_False by naive_solver.
  - destruct (lookup_lt_is_Some_2 ctot d) as [td Htd]; [lia|].
    destruct (lookup_lt_is_Some_2 vtot u) as [tu Htu]; [lia|].
    destruct (louvainChangeCommunity_eq vcom ctot x u c vtot d td tu)
      as (tc & Htc & Hchange); [done|done|done|lia|].
    exists c, e, d, (mkMoveState (<[u:=c]> vcom)
                       (<[c:=tc + tu]> (<[d:=td - tu]> ctot)) vcs1 vcout1).
    split_and!; try done.
    + split; simpl; rewrite ?length_insert; try done.
      by apply list.Forall_insert.
    + intros el. simpl. rewrite Hclear. simpl. rewrite Hscan. simpl.
      rewrite Hchoose'. simpl. rewrite decide_True by done.
      by rewrite Hchange.
Qed.

End Visit.

(** C2: in a visit of louvainMove, with (c, e) the pair chosen after the
    clearing and the scan, the move is applied (ctot of the old community
    less vtot[u], ctot[c] plus vtot[u], vcom[u] = c) when c is not 0 and
    e is strictly positive, and vcom and ctot are left as they were
    otherwise; a best target 0 is never moved to. *)
Theorem louvainMove_applies_iff_nonzero_positive dm x vtot M R st el u :
  wfGraph x → wfState x vtot st → (u < span x)%nat →
  ∃ c e d tu td st',
    visitChoice dm x vtot M R st u = Some (c, e) ∧
    louvainMoveVisit dm x vtot M R (st, el) u = Some (st', el + e) ∧
    st_vcom st !! u = Some d ∧ vtot !! u = Some tu ∧
    st_ctot st !! d = Some td ∧
    (c ≠ 0%nat ∧ 0 < e →
       ∃ tc, st_ctot st !! c = Some tc ∧ c ≠ d ∧
             st_vcom st' = <[u:=c]> (st_vcom st) ∧
             st_ctot st' !! d = Some (td - tu) ∧
             st_ctot st' !! c = Some (tc + tu) ∧
             ∀ k, k ≠ d → k ≠ c → st_ctot st' !! k = st_ctot st !! k) ∧
    (¬ (c ≠ 0%nat ∧ 0 < e) →
       st_vcom st' = st_vcom st ∧ st_ctot st' = st_ctot st).
Proof.
  intros Hg Hst Hu.
  destruct (louvainMoveVisit_spec dm x vtot M R st u Hg Hst Hu)
    as (c & e & d & st' & Hchoice & Hd & Hres & Hcl & Hst' & Hvisit
        & Hzero & Hmove).
  assert (d < span x)%nat as Hdl.
  { pose proof (wf_vcom_lt _ _ _ Hst) as Hlt.
    rewrite list.Forall_forall in Hlt.
    by eapply Hlt, list_elem_of_lookup_2. }
  destruct (lookup_lt_is_Some_2 vtot u) as [tu Htu].
  { by rewrite (wf_vtot _ _ _ Hst). }
  destruct (lookup_lt_is_Some_2 (st_ctot st) d) as [td Htd].
  { by rewrite (wf_ctot _ _ _ Hst). }
  exists c, e, d, tu, td, st'. split_and!; try done.
  - intros [Hc He]. destruct Hres as [[= -> ->]|[_ Hcd]]; [done|].
    destruct (louvainChangeCommunity_eq (st_vcom st) (st_ctot st) x u c vtot
                d td tu) as (tc & Htc & Hchange); try done.
    { by rewrite (wf_ctot _ _ _ Hst). }
    rewrite (Hmove Hc) in Hchange. injection Hchange as Hvcom' Hctot'.
    rewrite list_lookup_insert_ne in Htc by done.
    exists tc. split_and!; try done.
    + rewrite Hctot'. rewrite list_lookup_insert_ne by done.
      apply list_lookup_insert_eq. by eapply lookup_lt_Some.
    + rewrite Hctot'. apply list_lookup_insert_eq. rewrite length_insert.
      by eapply lookup_lt_Some.
    + intros k Hkd Hkc. rewrite Hctot'. by rewrite !list_lookup_insert_ne.
  - intros Hno. destruct (decide (c = 0%nat)) as [Hc|Hc]; [by apply Hzero|].
    destruct Hres as [[= -> ->]|[He _]]; [done|]. destruct Hno. done.
Qed.

Lemma louvainMove_applies_iff_nonzero_positive_witness :
  ∃ c e d tu td st',
    visitChoice deltaModularity gPath vtotPath MPath 1
      (mkMoveState vcomPath ctotPath [] (replicate 4 0)) 1 = Some (c, e) ∧
    louvainMoveVisit deltaModularity gPath vtotPath MPath 1
      (mkMoveState vcomPath ctotPath [] (replicate 4 0), 0) 1
      = Some (st', 0 + e) ∧
    vcomPath !! 1%nat = Some d ∧ vtotPath !! 1%nat = Some tu ∧
    ctotPath !! d = Some td ∧
    (c ≠ 0%nat ∧ 0 < e →
       ∃ tc, ctotPath !! c = Some tc ∧ c ≠ d ∧
             st_vcom st' = <[1%nat:=c]> vcomPath ∧
             st_ctot st' !! d = Some (td - tu) ∧
             st_ctot st' !! c = Some (tc + tu) ∧
             ∀ k, k ≠ d → k ≠ c → st_ctot st' !! k = ctotPath !! k) ∧
    (¬ (c ≠ 0%nat ∧ 0 < e) →
       st_vcom st' = vcomPath ∧ st_ctot st' = ctotPath).
Proof.
  apply (louvainMove_applies_iff_nonzero_positive deltaModularity gPath
           vtotPath MPath 1 (mkMoveState vcomPath ctotPath [] (replicate 4 0))
           0 1%nat).
  - intros u v w Hin. unfold span, gPath. simpl.
    unfold edges, gPath in Hin. simpl in Hin.
    destruct u as [|[|[|[|u]]]]; simpl in Hin;
      rewrite ?elem_of_cons, ?elem_of_nil in Hin;
      intuition (simplify_eq; lia).
  - split; simpl; try reflexivity; repeat constructor; lia.
  - unfold span, gPath. simpl. lia.
Defined.

(** C9: the pair (cmax, emax) of louvainChooseCommunity with SELF=false has
    emax >= 0; a nonzero cmax comes with emax > 0 and differs from vcom[u];
    an empty vcs gives (0, 0).  Hence the test [if (c)] of louvainMove
    either moves u to another community at a strictly positive gain or
    leaves vcom and ctot alone. *)
Theorem louvainChooseCommunity_gain_nonnegative
    dm x u vcom vtot ctot vcs vcout M R d :
  vcom !! u = Some d → chooseBounds u d vtot ctot vcout vcs →
  ∃ cmax emax,
    louvainChooseCommunity dm false x u vcom vtot ctot vcs vcout M R
      = Some (cmax, emax) ∧
    0 ≤ emax ∧
    (cmax ≠ 0%nat → 0 < emax ∧ cmax ≠ d) ∧
    (vcs = [] → cmax = 0%nat ∧ emax = 0) ∧
    ∃ vcom' ctot',
      (if decide (cmax ≠ 0%nat)
       then louvainChangeCommunity vcom ctot x u cmax vtot
       else Some (vcom, ctot)) = Some (vcom', ctot') ∧
      ((0 < emax ∧ cmax ≠ d ∧ vcom' = <[u:=cmax]> vcom) ∨
       (vcom' = vcom ∧ ctot' = ctot)).
Proof.
  intros Hd Hb.
  destruct (louvainChoose_positive dm u d vtot ctot vcout M R vcs Hb)
    as ([c e] & Hchoose & Hres).
  exists c, e. unfold louvainChooseCommunity, vget. rewrite Hd. simpl.
  split; [done|]. split_and!.
  - destruct Hres as [[= -> ->]|(He & _)]; [done|by apply Qclt_le_weak].
  - intros Hc. destruct Hres as [[= -> ->]|(He & Hcd & _)]; done.
  - intros ->. by simplify_eq/=.
  - destruct (decide (c ≠ 0%nat)) as [Hc|Hc]; [|by eexists _, _; split; auto].
    destruct Hres as [[= -> ->]|(He & Hcd & Hin & _)]; [done|].
    destruct Hb as (Hu & Hd1 & Hd2 & Hvcs). rewrite list.Forall_forall in Hvcs.
    destruct (Hvcs c Hin) as [_ Hcl].
    destruct (lookup_lt_is_Some_2 ctot d Hd2) as [td Htd].
    destruct (lookup_lt_is_Some_2 vtot u Hu) as [tu Htu].
    destruct (louvainChangeCommunity_eq vcom ctot x u c vtot d td tu)
      as (tc & Htc & ->); try done.
    eexists _, _. split; [done|]. by left.
Qed.

Lemma louvainChooseCommunity_gain_nonnegative_witness :
  ∃ cmax emax,
    louvainChooseCommunity deltaModularity false gPath 2 vcomPath vtotPath
      ctotPath vcsPath2 vcoutPath2 MPath 1 = Some (cmax, emax) ∧
    0 ≤ emax ∧
    (cmax ≠ 0%nat → 0 < emax ∧ cmax ≠ 2%nat) ∧
    (vcsPath2 = [] → cmax = 0%nat ∧ emax = 0) ∧
    ∃ vcom' ctot',
      (if decide (cmax ≠ 0%nat)
       then louvainChangeCommunity vcomPath ctotPath gPath 2 cmax vtotPath
       else Some (vcomPath, ctotPath)) = Some (vcom', ctot') ∧
      ((0 < emax ∧ cmax ≠ 2%nat ∧ vcom' = <[2%nat:=cmax]> vcomPath) ∨
       (vcom' = vcomPath ∧ ctot' = ctotPath)).
Proof.
  apply (louvainChooseCommunity_gain_nonnegative deltaModularity gPath 2
           vcomPath vtotPath ctotPath vcsPath2 vcoutPath2 MPath 1 2%nat).
  - reflexivity.
  - unfold chooseBounds. simpl. repeat constructor; lia.
Defined.

(** ** Sweeps of louvainMove *)

Section Sweeps.

Variable dm : V → V → V → V → V → V → V → V.
Variables (x : Graph) (vtot : list V) (M R E : V).
Hypothesis Hg : wfGraph x.

Lemma visitGains_cons u keys st :
  visitGains dm x vtot M R (u :: keys) st
  = '(_, e) ← visitChoice dm x vtot M R st u;
    '(st, _) ← louvainMoveVisit dm x vtot M R (st, 0) u;
    es ← visitGains dm x vtot M R keys st;
    Some (e :: es).
Proof. done. Qed.

(** The visits of [keys] in turn add up the best gains. *)
Lemma louvainMoveVisits_gains keys st el :
  Forall (λ u, u < span x)%nat keys → wfState x vtot st →
  ∃ st' es,
    forEach (louvainMoveVisit dm x vtot M R) keys (st, el)
      = Some (st', el + sumV es) ∧
    visitGains dm x vtot M R keys st = Some es ∧
    wfState x vtot st'.
Proof.
  intros Hkeys. revert st el.
  induction Hkeys as [|u keys Hu Hkeys IH]; intros st el Hst.
  - exists st, []. simpl. by rewrite Qcplus_0_r.
  - destruct (louvainMoveVisit_spec dm x vtot M R st u Hg Hst Hu)
      as (c & e & d & st1 & Hchoice & _ & _ & _ & Hst1 & Hvisit & _).
    destruct (IH st1 (el + e) Hst1) as (st' & es & Hrun & Hgains & Hst').
    exists st', (e :: es). split_and!; [| |done].
    + rewrite sumV_cons, forEach_cons, (Hvisit el). simpl. rewrite Hrun.
      do 2 f_equal. ring.
    + rewrite visitGains_cons, Hchoice. cbn [mbind option_bind].
      rewrite (Hvisit 0). cbn [mbind option_bind]. by rewrite Hgains.
Qed.

Lemma louvainMoveSweep_gains st :
  wfState x vtot st →
  ∃ st' es,
    louvainMoveSweep dm x vtot M R st = Some (st', sumV es) ∧
    visitGains dm x vtot M R (vertexKeys x) st = Some es ∧
    wfState x vtot st'.
Proof.
  intros Hst. unfold louvainMoveSweep.
  destruct (louvainMoveVisits_gains (vertexKeys x) st 0)
    as (st' & es & Hrun & Hgains & Hst'); [|done|].
  { apply list.Forall_forall. apply vertexKeys_lt. }
  exists st', es. by rewrite Hrun, Qcplus_0_l.
Qed.

Lemma sweepGain_S i st st1 el :
  louvainMoveSweep dm x vtot M R st = Some (st1, el) →
  sweepGain dm x vtot M R (S i) st = sweepGain dm x vtot M R i st1.
Proof. intros Hs. unfold sweepGain. simpl. by rewrite Hs. Qed.

Lemma sweepGain_O st st1 el :
  louvainMoveSweep dm x vtot M R st = Some (st1, el) →
  sweepGain dm x vtot M R 0 st = Some el.
Proof. intros Hs. unfold sweepGain. simpl. by rewrite Hs. Qed.

(** Every sweep reached from a well-formed state runs, and its [el] is
    the sum of the best gains of its visits. *)
Lemma sweepGain_sum i st :
  wfState x vtot st →
  ∃ sti es,
    sweeps dm x vtot M R i st = Some sti ∧ wfState x vtot sti ∧
    visitGains dm x vtot M R (vertexKeys x) sti = Some es ∧
    sweepGain dm x vtot M R i st = Some (sumV es).
Proof.
  revert st. induction i as [|i IH]; intros st Hst.
  - destruct (louvainMoveSweep_gains st Hst) as (st1 & es & Hs & Hes & _).
    exists st, es. split_and!; try done. by eapply sweepGain_O.
  - destruct (louvainMoveSweep_gains st Hst) as (st1 & es & Hs & _ & Hst1).
    destruct (IH st1 Hst1) as (sti & es' & Hsw & Hsti & Hes' & Hgain).
    exists sti, es'. rewrite (sweepGain_S i st st1 _ Hs).
    split_and!; try done. simpl. by rewrite Hs.
Qed.

(** The loop: [k] sweeps are made, all but the last with [el > E], and
    the last with [el <= E] unless the bound [n] is what stopped it. *)
Lemma louvainMoveLoop_spec n l st :
  wfState x vtot st →
  ∃ st' k,
    louvainMoveLoop dm x vtot M R E n l st = Some (st', (l + Z.of_nat k)%Z) ∧
    (k ≤ n)%nat ∧ (n ≠ 0 → k ≠ 0)%nat ∧
    sweeps dm x vtot M R k st = Some st' ∧
    (∀ i, (i + 1 < k)%nat →
          ∃ el, sweepGain dm x vtot M R i st = Some el ∧ E < el) ∧
    ((k < n)%nat →
       ∃ el, sweepGain dm x vtot M R (k - 1) st = Some el ∧ el ≤ E).
Proof.
  revert l st. induction n as [|n IH]; intros l st Hst.
  - exists st, 0%nat. simpl. rewrite Z.add_0_r.
    split_and!; try done; intros; lia.
  - destruct (louvainMoveSweep_gains st Hst) as (st1 & es & Hs & _ & Hst1).
    simpl. rewrite Hs. simpl. destruct (decide (sumV es ≤ E)) as [Hle|Hgt].
    + exists st1, 1%nat. split_and!; try done; try lia.
      * simpl. by rewrite Hs.
      * intros _. exists (sumV es). split; [|done]. by eapply sweepGain_O.
    + apply Qcnot_le_lt in Hgt.
      destruct (IH (l + 1)%Z st1 Hst1)
        as (st' & k & Hrun & Hk & Hk0 & Hsw & Hbefore & Hlast).
      exists st', (S k). split_and!; try lia.
      * rewrite Hrun. do 2 f_equal. lia.
      * simpl. by rewrite Hs.
      * intros [|i] Hi.
        -- exists (sumV es). split; [|done]. by eapply sweepGain_O.
        -- rewrite (sweepGain_S i st st1 _ Hs). apply Hbefore. lia.
      * intros Hlt. destruct (Hlast ltac:(lia)) as (el & Hel & HelE).
        exists el. split; [|done].
        replace (S k - 1)%nat with (S (k - 1)) by lia.
        by rewrite (sweepGain_S _ st st1 _ Hs).
Qed.

End Sweeps.

(** C4: louvainMove returns; the value l it returns is the number of sweeps
    it made, between 0 and L (0 when L is not positive); the vectors are
    those left by l sweeps; every sweep but the last had el > E, and when
    l < L the last one had el <= E; in each sweep el is the sum of the best
    gains that louvainChooseCommunity returned at the visits, whether the
    move was applied or not. *)
Theorem louvainMove_terminates_at_tolerance dm x vtot M R E L st :
  wfGraph x → wfState x vtot st →
  ∃ st' k,
    louvainMove dm st x vtot M R E L = Some (st', Z.of_nat k) ∧
    (Z.of_nat k ≤ Z.max 0 L)%Z ∧ ((0 < L)%Z → k ≠ 0%nat) ∧
    sweeps dm x vtot M R k st = Some st' ∧
    (∀ i, (i + 1 < k)%nat →
          ∃ el, sweepGain dm x vtot M R i st = Some el ∧ E < el) ∧
    ((Z.of_nat k < L)%Z →
       ∃ el, sweepGain dm x vtot M R (k - 1) st = Some el ∧ el ≤ E) ∧
    (∀ i, ∃ sti es,
       sweeps dm x vtot M R i st = Some sti ∧
       visitGains dm x vtot M R (vertexKeys x) sti = Some es ∧
       sweepGain dm x vtot M R i st = Some (sumV es)).
Proof.
  intros Hg Hst. unfold louvainMove.
  destruct (louvainMoveLoop_spec dm x vtot M R E Hg (Z.to_nat L) 0%Z st Hst)
    as (st' & k & Hrun & Hk & Hk0 & Hsw & Hbefore & Hlast).
  exists st', k. split_and!; try done; try lia.
  - intros Hlt. apply Hlast. lia.
  - intros i. destruct (sweepGain_sum dm x vtot M R Hg i st Hst)
      as (sti & es & ? & _ & ? & ?). by exists sti, es.
Qed.

Lemma louvainMove_terminates_at_tolerance_witness :
  ∃ st' k,
    louvainMove deltaModularity
      (mkMoveState vcomPath ctotPath [] (replicate 4 0)) gPath vtotPath
      MPath 1 0 500 = Some (st', Z.of_nat k) ∧
    (Z.of_nat k ≤ Z.max 0 500)%Z ∧ ((0 < 500)%Z → k ≠ 0%nat) ∧
    sweeps deltaModularity gPath vtotPath MPath 1 k
      (mkMoveState vcomPath ctotPath [] (replicate 4 0)) = Some st' ∧
    (∀ i, (i + 1 < k)%nat →
          ∃ el, sweepGain deltaModularity gPath vtotPath MPath 1 i
                  (mkMoveState vcomPath ctotPath [] (replicate 4 0))
                = Some el ∧ 0 < el) ∧
    ((Z.of_nat k < 500)%Z →
       ∃ el, sweepGain deltaModularity gPath vtotPath MPath 1 (k - 1)
               (mkMoveState vcomPath ctotPath [] (replicate 4 0))
             = Some el ∧ el ≤ 0) ∧
    (∀ i, ∃ sti es,
       sweeps deltaModularity gPath vtotPath MPath 1 i
         (mkMoveState vcomPath ctotPath [] (replicate 4 0)) = Some sti ∧
       visitGains deltaModularity gPath vtotPath MPath 1 (vertexKeys gPath)
         sti = Some es ∧
       sweepGain deltaModularity gPath vtotPath MPath 1 i
         (mkMoveState vcomPath ctotPath [] (replicate 4 0))
       = Some (sumV es)).
Proof.
  apply (louvainMove_terminates_at_tolerance deltaModularity gPath vtotPath
           MPath 1 0 500 (mkMoveState vcomPath ctotPath [] (replicate 4 0))).
  - intros u v w Hin. unfold span, gPath. simpl.
    unfold edges, gPath in Hin. simpl in Hin.
    destruct u as [|[|[|[|u]]]]; simpl in Hin;
      rewrite ?elem_of_cons, ?elem_of_nil in Hin;
      intuition (simplify_eq; lia).
  - split; simpl; try reflexivity; repeat constructor; lia.
Defined.

(** ** louvainAffectedVertices *)

(** The loop over the insertions clears the buffers and chooses without a
    scan in between: [vcs] is empty at the choice, so the community it marks
    is 0 whatever the vertex. *)
Lemma louvainAffectedInsertion_marks_zero dm x vcom vtot ctot M R
    vcs vcout m e s' :
  louvainAffectedInsertion dm x vcom vtot ctot M R (vcs, vcout, m) e
    = Some s' →
  s'.1.1 = [] ∧
  mk_communities s'.2 = <[0%nat:=true]> (mk_communities m).
Proof.
  destruct m as [vs ns cs], e as [u v]. unfold louvainAffectedInsertion.
  unfold louvainClearScan.
  destruct (forEach _ vcs vcout) as [vcout'|]; [|done]. simpl.
  unfold louvainChooseCommunity.
  destruct (vget vcom u) as [d|]; [|done]. simpl.
  destruct (vset vs u true) as [vs'|]; [|done]. simpl.
  destruct (vset ns u true) as [ns'|]; [|done]. simpl.
  destruct (vset cs 0 true) as [cs'|] eqn:Hcs; [|done]. simpl.
  intros [= <-]. simpl. split; [done|]. by apply vset_Some in Hcs as [_ ->].
Qed.

(** C1 (the code departs from it): on the chain, for the insertion of the
    edge between 1 and 2, the best community of vertex 1 is 2 and that of
    vertex 2 is 1, but the community flagged is 0 alone; vertex 4 of
    community 2 is left out of the result and vertex 0 is in it. *)
Theorem louvainAffectedVertices_skips_scan :
  bestCommunity deltaModularity gChain 1 vcomChain vtotChain ctotChain
    MChain 1 = Some (2%nat, q 1 50) ∧
  bestCommunity deltaModularity gChain 2 vcomChain vtotChain ctotChain
    MChain 1 = Some (1%nat, q 1 10) ∧
  louvainAffectedMarks deltaModularity gChain [] [(1, 2); (2, 1)]%nat
    vcomChain vtotChain ctotChain MChain 1
    = Some (mkMarks [false; true; true; false; false]
                    [false; true; true; false; false]
                    [true; false; false; false; false]) ∧
  louvainAffectedVertices deltaModularity gChain [] [(1, 2); (2, 1)]%nat
    vcomChain vtotChain ctotChain MChain 1
    = Some [true; true; true; true; false].
Proof. split_and!; compute_done. Qed.

(** ** louvainAggregate *)

(** With an empty [vcout] the scan of a vertex that has an edge indexes
    outside the vector. *)
Lemma louvainScanCommunities_empty_vcout vcs x u vcom :
  edges x u ≠ [] → louvainScanCommunities true vcs [] x u vcom = None.
Proof.
  unfold louvainScanCommunities. destruct (edges x u) as [|[v w] es]; [done|].
  intros _. simpl. by destruct (vget vcom v).
Qed.

(** What a loop that ran to its end has kept. *)
Lemma forEach_Some_invariant {A St} (f : St → A → option St)
    (P : list A → St → Prop) l s s' :
  forEach f l s = Some s' →
  P [] s →
  (∀ pre a post s s1, l = pre ++ a :: post → P pre s → f s a = Some s1 →
     P (pre ++ [a]) s1) →
  P l s'.
Proof.
  intros Hrun H0 Hstep.
  cut (∀ post pre s, l = pre ++ post → P pre s →
         forEach f post s = Some s' → P l s').
  { intros Hcut. by apply (Hcut l [] s). }
  induction post as [|a post IH]; intros pre s1 Hl HP Hpost.
  - simpl in Hpost. rewrite app_nil_r in Hl. by simplify_eq.
  - rewrite forEach_cons in Hpost.
    destruct (f s1 a) as [s2|] eqn:Hf; [|done]. simpl in Hpost.
    apply (IH (pre ++ [a]) s2); [by rewrite <-app_assoc| |done].
    by eapply Hstep.
Qed.

Lemma louvainCommunityVertices_members x vcom comv u :
  louvainCommunityVertices x vcom = Some comv → u ∈ vertexKeys x →
  ∃ c members, comv !! c = Some members ∧ u ∈ members.
Proof.
  unfold louvainCommunityVertices. intros Hrun Hu.
  apply (forEach_Some_invariant _
    (λ pre (a : list (list K)),
       ∀ u, u ∈ pre → ∃ c members, a !! c = Some members ∧ u ∈ members)
    _ _ _ Hrun); [|  |done].
  - intros v Hv. by apply elem_of_nil in Hv.
  - intros pre v post a a1 _ Hpre Hstep w.
    destruct (vget vcom v) as [c|]; [|done]. simpl in Hstep.
    destruct (vget a c) as [m|] eqn:Hm; [|done]. simpl in Hstep.
    apply vset_Some in Hstep as [Hc ->].
    rewrite elem_of_app, elem_of_cons, elem_of_nil. intros [Hw|[->|[]]].
    + destruct (Hpre w Hw) as (c' & members & Hc' & Hin).
      destruct (decide (c' = c)) as [->|Hne].
      * exists c, (m ++ [v]). rewrite list_lookup_insert_eq by done.
        split; [done|]. unfold vget in Hm. simplify_eq.
        rewrite elem_of_app. by left.
      * exists c', members. by rewrite list_lookup_insert_ne.
    + exists c, (m ++ [v]). rewrite list_lookup_insert_eq by done.
      split; [done|]. rewrite elem_of_app, elem_of_cons. auto.
Qed.

Lemma louvainCommunityVertices_length x vcom comv :
  louvainCommunityVertices x vcom = Some comv → length comv = span x.
Proof.
  unfold louvainCommunityVertices. intros Hrun.
  apply (forEach_Some_invariant _
    (λ _ (a : list (list K)), length a = span x) _ _ _ Hrun).
  - apply length_replicate.
  - intros pre v post a a1 _ Hpre Hstep.
    destruct (vget vcom v) as [c|]; [|done]. simpl in Hstep.
    destruct (vget a c) as [m|]; [|done]. simpl in Hstep.
    apply vset_Some in Hstep as [_ ->]. by rewrite length_insert.
Qed.

Lemma louvainScanCommunities_nil SELF vcs vcout x u vcom :
  edges x u = [] →
  louvainScanCommunities SELF vcs vcout x u vcom = Some (vcs, vcout).
Proof. intros Hnil. unfold louvainScanCommunities. by rewrite Hnil. Qed.

(** The scans of the members of a community, begun with both buffers
    empty, come through only when no member has an edge. *)
Lemma louvainScanMembers_empty x vcom members s :
  forEach (λ '(vcs, vcout) u, louvainScanCommunities true vcs vcout x u vcom)
          members ([], []) = Some s →
  s = ([], []) ∧ ∀ u, u ∈ members → edges x u = [].
Proof.
  induction members as [|u members IH]; intros Hrun.
  - simpl in Hrun. simplify_eq. split; [done|].
    intros u Hu. by apply elem_of_nil in Hu.
  - rewrite forEach_cons in Hrun.
    destruct (decide (edges x u = [])) as [Hnil|Hedge].
    + cbv beta iota in Hrun.
      rewrite (louvainScanCommunities_nil _ _ _ _ _ _ Hnil) in Hrun.
      destruct (IH Hrun) as [-> Hall]. split; [done|].
      intros v. rewrite elem_of_cons. intros [->|Hv]; auto.
    + cbv beta iota in Hrun.
      by rewrite louvainScanCommunities_empty_vcout in Hrun.
Qed.

(** Whatever the clustering, louvainAggregate comes through only on a graph
    none of whose live vertices has an edge. *)
Lemma louvainAggregate_Some_no_edges a x vcom a' :
  louvainAggregate a x vcom = Some a' →
  ∀ u, u ∈ vertexKeys x → edges x u = [].
Proof.
  unfold louvainAggregate. intros Hrun u Hu.
  destruct (louvainCommunityVertices x vcom) as [comv|] eqn:Hcomv; [|done].
  simpl in Hrun.
  destruct (forEach _ (seq 0 (length comv)) (a, [], [])) as [[[a1 vcs] vcout]|]
    eqn:Hloop; [|done].
  destruct (louvainCommunityVertices_members x vcom comv u Hcomv Hu)
    as (c & members & Hc & Hin).
  pose proof (forEach_Some_invariant _
    (λ pre (s : Graph * list K * list V),
       s.1.2 = [] ∧ s.2 = [] ∧
       ∀ c members, c ∈ pre → comv !! c = Some members →
                    ∀ u, u ∈ members → edges x u = [])
    _ _ _ Hloop) as Hinv.
  destruct Hinv as (_ & _ & Hall).
  - split_and!; try done. intros c' m Hc'. by apply elem_of_nil in Hc'.
  - intros pre c' post [[a2 vcs2] vcout2] s1 _ (Hv & Ho & Hpre) Hstep.
    simpl in Hv, Ho. subst vcs2 vcout2.
    unfold louvainAggregateCommunity in Hstep. simpl in Hstep.
    destruct (vget comv c') as [m|] eqn:Hm; [|done]. simpl in Hstep.
    destruct (forEach _ m ([], [])) as [s|] eqn:Hscan; [|done].
    apply louvainScanMembers_empty in Hscan as [-> Hm0].
    simpl in Hstep. simplify_eq. split_and!; try done.
    intros c'' m' Hin' Hm' w Hw.
    rewrite elem_of_app, elem_of_cons, elem_of_nil in Hin'.
    destruct Hin' as [Hin'|[->|[]]]; [by eapply Hpre|].
    unfold vget in Hm. simplify_eq. by apply Hm0.
  - apply (Hall c members); [|done|done].
    apply elem_of_seq. apply lookup_lt_Some in Hc. lia.
Qed.

(** C6 (the code departs from it): louvainAggregate leaves [vcout] empty,
    so on the single vertex with a self-loop, under the identity
    clustering, the scan indexes outside [vcout] and no graph comes out. *)
Theorem louvainAggregate_identity_out_of_bounds :
  louvainCommunityVertices gLoop [0%nat] = Some [[0%nat]] ∧
  louvainScanCommunities true [] [] gLoop 0 [0%nat] = None ∧
  louvainAggregate (mkGraph []) gLoop [0%nat] = None ∧
  ¬ ∃ a, louvainAggregate (mkGraph []) gLoop [0%nat] = Some a ∧
         vertexKeys a = vertexKeys gLoop ∧
         ∀ u v, edgeWeight a u v = edgeWeight gLoop u v.
Proof.
  split_and!; [compute_done..|].
  intros (a & Ha & _). by vm_compute in Ha.
Qed.

(** * Further properties *)

(** ** louvainVertexWeights and louvainCommunityWeights *)

Lemma sumV_snoc l a : sumV (l ++ [a]) = sumV l + a.
Proof. rewrite sumV_app. unfold sumV at 2. simpl. ring. Qed.

(** The inner loop of louvainVertexWeights adds the weights of [es] to
    [vtot[u]]. *)
Lemma louvainVertexWeights_inner (es : list (K * V)) (vtot : list V) u t :
  vtot !! u = Some t →
  forEach (λ vtot '(v, w), t ← vget vtot u; vset vtot u (t + w)) es vtot
  = Some (<[u:=t + sumV es.*2]> vtot).
Proof.
  revert vtot t. induction es as [|[v w] es IH]; intros vtot t Ht.
  - simpl. unfold sumV. simpl. rewrite Qcplus_0_r.
    by rewrite list_insert_id.
  - rewrite fmap_cons, sumV_cons, forEach_cons. unfold vget. rewrite Ht.
    simpl. rewrite vset_lt by by eapply lookup_lt_Some. simpl.
    rewrite (IH _ (t + w)).
    + rewrite list_insert_insert_eq. do 2 f_equal. ring.
    + apply list_lookup_insert_eq. by eapply lookup_lt_Some.
Qed.

(** X1: louvainVertexWeights adds to vtot[u], for every live vertex u, the
    sum of the weights of the edges of u (self-loops included), and leaves
    the entries of the other keys alone. *)
Theorem louvainVertexWeights_adds_edge_weights (vtot : list V) x :
  length vtot = span x →
  ∃ vtot',
    louvainVertexWeights vtot x = Some vtot' ∧
    length vtot' = span x ∧
    (∀ u t, u ∈ vertexKeys x → vtot !! u = Some t →
            vtot' !! u = Some (t + sumV (edges x u).*2)) ∧
    (∀ u, u ∉ vertexKeys x → vtot' !! u = vtot !! u).
Proof.
  intros Hlen. unfold louvainVertexWeights.
  edestruct (forEach_invariant
    (λ vtot u,
       forEach (λ vtot '(v, w), t ← vget vtot u; vset vtot u (t + w))
               (edges x u) vtot)
    (λ pre (vtot' : list V),
       length vtot' = span x ∧
       (∀ u t, u ∈ pre → vtot !! u = Some t →
               vtot' !! u = Some (t + sumV (edges x u).*2)) ∧
       (∀ u, u ∉ pre → vtot' !! u = vtot !! u))
    (vertexKeys x) vtot) as (vtot' & Hrun & HP).
  - split_and!; [done| |done]. intros u t Hu. by apply elem_of_nil in Hu.
  - intros pre a post v Hl (Hl1 & Hin & Hout).
    assert (NoDup (pre ++ a :: post)) as Hnd
      by (rewrite <-Hl; apply vertexKeys_NoDup).
    assert (a ∉ pre) as Ha.
    { apply list.NoDup_app in Hnd as (_ & Hnd & _). intros Hin'.
      apply (Hnd a Hin'). by left. }
    assert (a < span x)%nat as Hal.
    { apply vertexKeys_lt. rewrite Hl, elem_of_app, elem_of_cons. auto. }
    destruct (lookup_lt_is_Some_2 vtot a) as [t Ht]; [lia|].
    rewrite (louvainVertexWeights_inner _ v a t)
      by (by rewrite (Hout a Ha)).
    eexists. split; [done|]. rewrite length_insert. split_and!; [done| |].
    + intros u t'. rewrite elem_of_app, elem_of_cons, elem_of_nil.
      intros Hu Hu'. destruct (decide (u = a)) as [->|Hne].
      * rewrite list_lookup_insert_eq by lia. by simplify_eq.
      * rewrite list_lookup_insert_ne by done. apply Hin; [tauto|done].
    + intros u. rewrite elem_of_app, elem_of_cons, elem_of_nil. intros Hu.
      rewrite list_lookup_insert_ne by (intros ->; tauto).
      apply Hout. tauto.
  - by exists vtot'.
Qed.

Lemma louvainVertexWeights_adds_edge_weights_witness :
  ∃ vtot',
    louvainVertexWeights (replicate 4 0) gPath = Some vtot' ∧
    length vtot' = span gPath ∧
    (∀ u t, u ∈ vertexKeys gPath → replicate 4 0 !! u = Some t →
            vtot' !! u = Some (t + sumV (edges gPath u).*2)) ∧
    (∀ u, u ∉ vertexKeys gPath → vtot' !! u = replicate 4 0 !! u).
Proof.
  apply (louvainVertexWeights_adds_edge_weights (replicate 4 0) gPath).
  reflexivity.
Defined.

Lemma weightIn_snoc f vcom l v k :
  weightIn f vcom (l ++ [v]) k
  = weightIn f vcom l k + (if decide (vcom !! v = Some k) then f v else 0).
Proof.
  unfold weightIn. rewrite list.filter_app, filter_cons, filter_nil.
  case_decide.
  - by rewrite fmap_snoc, sumV_snoc.
  - by rewrite app_nil_r, Qcplus_0_r.
Qed.

(** From a zero-initialised [ctot], louvainCommunityWeights leaves the
    weight of every community. *)
Lemma louvainCommunityWeights_spec x (vcom : list K) (vtot : list V) :
  length vtot = span x →
  (∀ u, u ∈ vertexKeys x → ∃ c, vcom !! u = Some c ∧ (c < span x)%nat) →
  ∃ ctot,
    louvainCommunityWeights (replicate (span x) 0) x vcom vtot = Some ctot ∧
    length ctot = span x ∧
    ∀ c, (c < span x)%nat → ctot !! c = Some (communityWeight x vcom vtot c).
Proof.
  intros Hvt Hcom. unfold louvainCommunityWeights, communityWeight.
  edestruct (forEach_invariant
    (λ ctot u, c ← vget vcom u; t ← vget ctot c; tu ← vget vtot u;
               vset ctot c (t + tu))
    (λ pre (ctot : list V),
       length ctot = span x ∧
       ∀ c, (c < span x)%nat →
            ctot !! c
            = Some (weightIn (λ u, default 0 (vtot !! u)) vcom pre c))
    (vertexKeys x) (replicate (span x) 0)) as (ctot & Hrun & HP).
  - split; [apply length_replicate|]. intros c Hc.
    by rewrite lookup_replicate_2.
  - intros pre u post ctot Hl (Hlen & Hw).
    assert (u ∈ vertexKeys x) as Hu.
    { rewrite Hl, elem_of_app, elem_of_cons. auto. }
    destruct (Hcom u Hu) as (c & Hc & Hcl).
    destruct (lookup_lt_is_Some_2 vtot u) as [tu Htu].
    { rewrite Hvt. by apply vertexKeys_lt. }
    unfold vget. rewrite Hc. simpl. rewrite (Hw c Hcl). simpl.
    rewrite Htu. simpl. rewrite vset_lt by lia.
    eexists. split; [done|]. rewrite length_insert. split; [done|].
    intros k Hk. rewrite weightIn_snoc, Hc.
    destruct (decide (k = c)) as [->|Hne].
    + rewrite list_lookup_insert_eq by lia. rewrite decide_True by done.
      by rewrite Htu.
    + rewrite list_lookup_insert_ne by done. rewrite (Hw k Hk).
      rewrite decide_False by congruence. by rewrite Qcplus_0_r.
  - by exists ctot.
Qed.

(** X2: on a zero-initialised ctot, louvainCommunityWeights leaves in
    ctot[c] the sum of vtot[u] over the live vertices u with vcom[u] = c,
    for every community id c. *)
Theorem louvainCommunityWeights_consistent x (vcom : list K) (vtot : list V) :
  length vtot = span x →
  (∀ u, u ∈ vertexKeys x → ∃ c, vcom !! u = Some c ∧ (c < span x)%nat) →
  ∃ ctot,
    louvainCommunityWeights (replicate (span x) 0) x vcom vtot = Some ctot ∧
    length ctot = span x ∧
    ∀ c, (c < span x)%nat → ctot !! c = Some (communityWeight x vcom vtot c).
Proof. apply louvainCommunityWeights_spec. Qed.

Lemma vertexKeys_gPath : vertexKeys gPath = [0; 1; 2; 3]%nat.
Proof. reflexivity. Qed.

Lemma louvainCommunityWeights_consistent_witness :
  ∃ ctot,
    louvainCommunityWeights (replicate (span gPath) 0) gPath vcomPath
      vtotPath = Some ctot ∧
    length ctot = span gPath ∧
    ∀ c, (c < span gPath)%nat →
         ctot !! c = Some (communityWeight gPath vcomPath vtotPath c).
Proof.
  apply (louvainCommunityWeights_consistent gPath vcomPath vtotPath).
  - reflexivity.
  - intros u. rewrite vertexKeys_gPath, !elem_of_cons, elem_of_nil.
    intros [->|[->|[->|[->|[]]]]]; eexists; (split; [reflexivity|]);
      unfold span, gPath; simpl; lia.
Defined.

(** X3: the singleton initialisation agrees with the recomputation: the
    ctot that louvainInitialize leaves on a zero-initialised vector is the
    one louvainCommunityWeights computes for the vcom it leaves. *)
Theorem louvainInitialize_is_community_weights x (vcom0 : list K)
    (vtot : list V) :
  length vcom0 = span x → length vtot = span x →
  ∃ vcom ctot,
    louvainInitialize vcom0 (replicate (span x) 0) x vtot
      = Some (vcom, ctot) ∧
    louvainCommunityWeights (replicate (span x) 0) x vcom vtot = Some ctot.
Proof.
  intros Hvc Hvt.
  destruct (louvainInitialize_levelInv vcom0 x vtot Hvc Hvt)
    as ([vcom ctot] & Hinit & Hl1 & Hl2 & Hcom & Hw).
  simpl in Hl1, Hl2, Hcom, Hw. exists vcom, ctot. split; [done|].
  destruct (louvainCommunityWeights_spec x vcom vtot Hvt Hcom)
    as (ctot' & -> & Hl' & Hw').
  f_equal. apply list_eq. intros c.
  destruct (decide (c < span x)%nat) as [Hc|Hc].
  - by rewrite Hw, Hw'.
  - rewrite !lookup_ge_None_2 by lia. done.
Qed.

Lemma louvainInitialize_is_community_weights_witness :
  ∃ vcom ctot,
    louvainInitialize (replicate 4 0%nat) (replicate (span gPath) 0) gPath
      vtotPath = Some (vcom, ctot) ∧
    louvainCommunityWeights (replicate (span gPath) 0) gPath vcom vtotPath
      = Some ctot.
Proof.
  apply (louvainInitialize_is_community_weights gPath (replicate 4 0%nat)
           vtotPath); reflexivity.
Defined.

(** ** The scratch buffers *)

Lemma louvainClearScan_spec (vcs : list K) (vcout : list V) :
  Forall (λ c, c < length vcout)%nat vcs →
  ∃ vcout',
    louvainClearScan vcs vcout = Some ([], vcout') ∧
    length vcout' = length vcout ∧
    (∀ c, c ∈ vcs → vcout' !! c = Some 0) ∧
    (∀ c, c ∉ vcs → vcout' !! c = vcout !! c).
Proof.
  intros Hvcs. unfold louvainClearScan.
  edestruct (forEach_invariant (λ (vcout : list V) c, vset vcout c 0)
    (λ pre (v : list V),
       length v = length vcout ∧
       (∀ c, c ∈ pre → v !! c = Some 0) ∧
       (∀ c, c ∉ pre → v !! c = vcout !! c))
    vcs vcout) as (vcout' & -> & HP).
  - split_and!; [done| |done]. intros c Hc. by apply elem_of_nil in Hc.
  - intros pre c post v Hl (Hlen & Hin & Hout).
    assert (c < length vcout)%nat as Hc.
    { rewrite list.Forall_forall in Hvcs. apply Hvcs.
      rewrite Hl, elem_of_app, elem_of_cons. auto. }
    rewrite vset_lt by lia. eexists. split; [done|].
    rewrite length_insert. split_and!; [done| |].
    + intros k. rewrite elem_of_app, elem_of_cons, elem_of_nil. intros Hk.
      destruct (decide (k = c)) as [->|Hne].
      * by rewrite list_lookup_insert_eq by lia.
      * rewrite list_lookup_insert_ne by done. apply Hin. tauto.
    + intros k. rewrite elem_of_app, elem_of_cons, elem_of_nil. intros Hk.
      rewrite list_lookup_insert_ne by (intros ->; tauto).
      apply Hout. tauto.
  - by exists vcout'.
Qed.

(** X6: louvainClearScan empties vcs, sets to zero the entries of vcout that
    vcs lists and changes no other entry. *)
Theorem louvainClearScan_zeroes_listed (vcs : list K) (vcout : list V) :
  Forall (λ c, c < length vcout)%nat vcs →
  ∃ vcout',
    louvainClearScan vcs vcout = Some ([], vcout') ∧
    length vcout' = length vcout ∧
    (∀ c, c ∈ vcs → vcout' !! c = Some 0) ∧
    (∀ c, c ∉ vcs → vcout' !! c = vcout !! c).
Proof. apply louvainClearScan_spec. Qed.

Lemma louvainClearScan_zeroes_listed_witness :
  ∃ vcout',
    louvainClearScan vcsPath2 vcoutPath2 = Some ([], vcout') ∧
    length vcout' = length vcoutPath2 ∧
    (∀ c, c ∈ vcsPath2 → vcout' !! c = Some 0) ∧
    (∀ c, c ∉ vcsPath2 → vcout' !! c = vcoutPath2 !! c).
Proof.
  apply (louvainClearScan_zeroes_listed vcsPath2 vcoutPath2).
  repeat constructor; simpl; lia.
Defined.

(** The scan from cleared buffers, whatever the weights: every entry of
    [vcout] holds the weight towards its community, and an entry that is
    not zero is listed. *)
Lemma louvainScanCommunities_accumulates SELF x u (vcom : list K) n :
  (∀ v w, (v, w) ∈ edges x u → ∃ c, vcom !! v = Some c ∧ (c < n)%nat) →
  ∃ vcs vcout,
    louvainScanCommunities SELF [] (replicate n 0) x u vcom
      = Some (vcs, vcout) ∧
    length vcout = n ∧ Forall (λ c, c < n)%nat vcs ∧
    (∀ c, (c < n)%nat → vcout !! c = Some (scanWeight SELF x u vcom c)) ∧
    (∀ c o, vcout !! c = Some o → o ≠ 0 → c ∈ vcs).
Proof.
  intros Hcom. unfold louvainScanCommunities, scanWeight.
  edestruct (forEach_invariant (louvainScanEdge SELF u vcom)
    (λ pre (s : list K * list V),
       length s.2 = n ∧ Forall (λ c, c < n)%nat s.1 ∧
       (∀ c, (c < n)%nat →
          s.2 !! c
          = Some (sumV ((filter
                 (λ e, (SELF = true ∨ e.1 ≠ u) ∧ vcom !! e.1 = Some c)
                 pre).*2))) ∧
       (∀ c o, s.2 !! c = Some o → o ≠ 0 → c ∈ s.1))
    (edges x u) ([], replicate n 0)) as ([vcs vcout] & Hrun & HP).
  - simpl. split_and!; [apply length_replicate|constructor| |].
    + intros c Hc. by rewrite lookup_replicate_2.
    + intros c o Ho Hne. by apply lookup_replicate in Ho as [-> _].
  - intros pre [v w] post [vcs vcout] Hl (Hlen & Hvcs & Hsum & Hlisted).
    simpl in Hlen, Hvcs, Hsum, Hlisted.
    destruct (negb SELF && bool_decide (u = v)) eqn:Hskip.
    + exists (vcs, vcout). split.
      { unfold louvainScanEdge. by rewrite Hskip. }
      simpl. split_and!; try done. intros c Hc.
      rewrite list.filter_app, filter_cons, filter_nil.
      rewrite decide_False, app_nil_r; [by apply Hsum|].
      apply andb_true_iff in Hskip as [HS Hu].
      apply bool_decide_eq_true_1 in Hu. destruct SELF; [done|].
      simpl. intros [[?|?] _]; congruence.
    + destruct (Hcom v w) as (c0 & Hc0 & Hc0n).
      { rewrite Hl, elem_of_app, elem_of_cons. auto. }
      destruct (lookup_lt_is_Some_2 vcout c0) as [o Ho]; [lia|].
      rewrite (louvainScanEdge_eq SELF u vcom vcs vcout v w c0 o) by done.
      eexists. split; [done|]. simpl. rewrite length_insert.
      assert (SELF = true ∨ v ≠ u) as Hkeep.
      { destruct SELF; [by left|right]. simpl in Hskip.
        apply bool_decide_eq_false_1 in Hskip. congruence. }
      split_and!; [done| | |].
      * destruct (decide (o = 0)); [|done].
        apply list.Forall_app. split; [done|]. by repeat constructor.
      * intros c Hc. rewrite list.filter_app, filter_cons, filter_nil.
        simpl. destruct (decide (c = c0)) as [->|Hne].
        -- rewrite list_lookup_insert_eq by lia.
           rewrite decide_True by done.
           rewrite fmap_snoc, sumV_snoc. simpl.
           rewrite (Hsum c0 Hc) in Ho. by simplify_eq.
        -- rewrite list_lookup_insert_ne by done.
           rewrite decide_False, app_nil_r; [by apply Hsum|].
           intros [_ ?]. congruence.
      * intros c o'. destruct (decide (c = c0)) as [->|Hne].
        -- intros _ _. destruct (decide (o = 0)) as [Hz|Hz].
           ++ rewrite elem_of_app, elem_of_cons. auto.
           ++ by eapply Hlisted.
        -- rewrite list_lookup_insert_ne by done. intros Ho' Hne'.
           destruct (decide (o = 0)); [|by eapply Hlisted].
           rewrite elem_of_app. left. by eapply Hlisted.
  - exists vcs, vcout. done.
Qed.

(** X4: from cleared buffers, whatever the weights, the scan of u leaves in
    vcout[c] the sum of the weights of the edges of u into community c, a
    self-loop counting only when SELF is set. *)
Theorem louvainScanCommunities_weight_to_community SELF x u
    (vcom : list K) n :
  (∀ v w, (v, w) ∈ edges x u → ∃ c, vcom !! v = Some c ∧ (c < n)%nat) →
  ∃ vcs vcout,
    louvainScanCommunities SELF [] (replicate n 0) x u vcom
      = Some (vcs, vcout) ∧
    length vcout = n ∧
    ∀ c, (c < n)%nat → vcout !! c = Some (scanWeight SELF x u vcom c).
Proof.
  intros Hcom.
  destruct (louvainScanCommunities_accumulates SELF x u vcom n Hcom)
    as (vcs & vcout & Hrun & Hlen & _ & Hsum & _).
  by exists vcs, vcout.
Qed.

Lemma edges_gPath_2_bounds v w :
  (v, w) ∈ edges gPath 2 → ∃ c, vcomPath !! v = Some c ∧ (c < 4)%nat.
Proof.
  unfold edges, gPath. simpl. rewrite !elem_of_cons, elem_of_nil.
  intros [H|[H|[]]]; simplify_eq; eexists; (split; [reflexivity|lia]).
Defined.

Lemma louvainScanCommunities_weight_to_community_witness :
  ∃ vcs vcout,
    louvainScanCommunities false [] (replicate 4 0) gPath 2 vcomPath
      = Some (vcs, vcout) ∧
    length vcout = 4%nat ∧
    ∀ c, (c < 4)%nat →
         vcout !! c = Some (scanWeight false gPath 2 vcomPath c).
Proof.
  apply (louvainScanCommunities_weight_to_community false gPath 2
           vcomPath 4).
  apply edges_gPath_2_bounds.
Defined.

(** X5: scratch hygiene, whatever the weights (zero and negative ones
    too): a scan from cleared buffers followed by louvainClearScan gives
    the cleared buffers back. *)
Theorem louvainClearScan_after_scan SELF x u (vcom : list K) n :
  (∀ v w, (v, w) ∈ edges x u → ∃ c, vcom !! v = Some c ∧ (c < n)%nat) →
  ∃ vcs vcout,
    louvainScanCommunities SELF [] (replicate n 0) x u vcom
      = Some (vcs, vcout) ∧
    louvainClearScan vcs vcout = Some ([], replicate n 0).
Proof.
  intros Hcom.
  destruct (louvainScanCommunities_accumulates SELF x u vcom n Hcom)
    as (vcs & vcout & Hrun & Hlen & Hvcs & _ & Hlisted).
  exists vcs, vcout. split; [done|].
  destruct (louvainClearScan_spec vcs vcout)
    as (vcout' & -> & Hlen' & Hin & Hout); [by rewrite Hlen|].
  do 2 f_equal. apply list_eq. intros c.
  destruct (decide (c < n)%nat) as [Hc|Hc].
  - rewrite lookup_replicate_2 by done.
    destruct (decide (c ∈ vcs)) as [Hcin|Hcout]; [by apply Hin|].
    rewrite (Hout c Hcout).
    destruct (lookup_lt_is_Some_2 vcout c) as [o Ho]; [lia|].
    rewrite Ho. f_equal. destruct (decide (o = 0)) as [|Hne]; [done|].
    destruct Hcout. by eapply Hlisted.
  - rewrite !lookup_ge_None_2; [done|rewrite length_replicate; lia|lia].
Qed.

Lemma louvainClearScan_after_scan_witness :
  ∃ vcs vcout,
    louvainScanCommunities false [] (replicate 4 0) gPath 2 vcomPath
      = Some (vcs, vcout) ∧
    louvainClearScan vcs vcout = Some ([], replicate 4 0).
Proof.
  apply (louvainClearScan_after_scan false gPath 2 vcomPath 4).
  apply edges_gPath_2_bounds.
Defined.

(** ** Moves *)

(** X7: moving u to community c and then back to its former community d
    restores vcom and ctot. *)
Theorem louvainChangeCommunity_round_trip (vcom : list K) (ctot : list V)
    x u c (vtot : list V) d :
  vcom !! u = Some d → (d < length ctot)%nat → (c < length ctot)%nat →
  (u < length vtot)%nat →
  ∃ vcom1 ctot1,
    louvainChangeCommunity vcom ctot x u c vtot = Some (vcom1, ctot1) ∧
    louvainChangeCommunity vcom1 ctot1 x u d vtot = Some (vcom, ctot).
Proof.
  intros Hd Hdl Hcl Hul.
  assert (u < length vcom)%nat as Hu by by eapply lookup_lt_Some.
  destruct (lookup_lt_is_Some_2 ctot d Hdl) as [td Htd].
  destruct (lookup_lt_is_Some_2 vtot u Hul) as [tu Htu].
  destruct (louvainChangeCommunity_eq vcom ctot x u c vtot d td tu)
    as (tc & Htc & ->); try done.
  eexists _, _. split; [done|].
  destruct (louvainChangeCommunity_eq (<[u:=c]> vcom)
              (<[c:=tc + tu]> (<[d:=td - tu]> ctot)) x u d vtot c
              (tc + tu) tu) as (td' & Htd' & ->).
  - by apply list_lookup_insert_eq.
  - apply list_lookup_insert_eq. by rewrite length_insert.
  - done.
  - by rewrite !length_insert.
  - f_equal. f_equal.
    + rewrite list_insert_insert_eq. by apply list_insert_id.
    + apply list_eq. intros k.
      destruct (decide (c = d)) as [->|Hcd].
      * rewrite list_lookup_insert_eq in Htc by done.
        rewrite list_lookup_insert_eq in Htd'
          by (by rewrite !length_insert).
        simplify_eq. rewrite !list_insert_insert_eq.
        destruct (decide (k = d)) as [->|Hk].
        -- rewrite list_lookup_insert_eq by done. rewrite Htd. f_equal. ring.
        -- by rewrite list_lookup_insert_ne.
      * rewrite list_lookup_insert_ne in Htc by done.
        rewrite list_lookup_insert_ne, list_lookup_insert_ne,
          list_lookup_insert_eq in Htd' by done.
        simplify_eq.
        destruct (decide (k = d)) as [->|Hkd].
        -- rewrite list_lookup_insert_eq by (by rewrite !length_insert).
           rewrite Htd. f_equal. ring.
        -- rewrite list_lookup_insert_ne by done.
           destruct (decide (k = c)) as [->|Hkc].
           ++ rewrite list_lookup_insert_eq by (by rewrite !length_insert).
              rewrite Htc. f_equal. ring.
           ++ by rewrite !list_lookup_insert_ne.
Qed.

Lemma louvainChangeCommunity_round_trip_witness :
  ∃ vcom1 ctot1,
    louvainChangeCommunity vcomPath ctotPath gPath 1 2 vtotPath
      = Some (vcom1, ctot1) ∧
    louvainChangeCommunity vcom1 ctot1 gPath 1 1 vtotPath
      = Some (vcomPath, ctotPath).
Proof.
  apply (louvainChangeCommunity_round_trip vcomPath ctotPath gPath 1 2
           vtotPath 1%nat).
  - reflexivity.
  - simpl. lia.
  - simpl. lia.
  - simpl. lia.
Defined.

Lemma louvainChangeCommunity_inv (vcom : list K) (ctot : list V) x u c
    (vtot : list V) vcom' ctot' :
  louvainChangeCommunity vcom ctot x u c vtot = Some (vcom', ctot') →
  vcom' = <[u:=c]> vcom ∧ sumV ctot' = sumV ctot.
Proof.
  unfold louvainChangeCommunity, vget. intros Hrun.
  destruct (vcom !! u) as [d|] eqn:Hd; [|done]. simpl in Hrun.
  destruct (ctot !! d) as [td|] eqn:Htd; [|done]. simpl in Hrun.
  destruct (vtot !! u) as [tu|] eqn:Htu; [|done]. simpl in Hrun.
  destruct (vset ctot d (td - tu)) as [ctot1|] eqn:H1; [|done].
  simpl in Hrun. apply vset_Some in H1 as [Hdl ->].
  destruct (<[d:=td - tu]> ctot !! c) as [tc|] eqn:Htc; [|done].
  simpl in Hrun.
  destruct (vset (<[d:=td - tu]> ctot) c (tc + tu)) as [ctot2|] eqn:H2;
    [|done].
  simpl in Hrun. apply vset_Some in H2 as [Hcl ->].
  destruct (vset vcom u c) as [vcom2|] eqn:H3; [|done].
  simpl in Hrun. apply vset_Some in H3 as [_ ->]. simplify_eq.
  split; [done|].
  rewrite (sumV_insert _ _ _ _ Htc), (sumV_insert _ _ _ _ Htd).
  destruct (decide (c = d)) as [->|Hne].
  - rewrite list_lookup_insert_eq in Htc by done. simplify_eq. ring.
  - rewrite list_lookup_insert_ne in Htc by done. ring.
Qed.

(** ** Where a visit can move a vertex *)

Lemma louvainScanCommunities_vcs_source SELF x u (vcom : list K) vcs0
    vcout0 vcs vcout :
  louvainScanCommunities SELF vcs0 vcout0 x u vcom = Some (vcs, vcout) →
  ∀ c, c ∈ vcs →
       c ∈ vcs0 ∨
       ∃ v w, (v, w) ∈ edges x u ∧ (SELF = true ∨ v ≠ u) ∧
              vcom !! v = Some c.
Proof.
  unfold louvainScanCommunities. intros Hrun.
  apply (forEach_Some_invariant _
    (λ pre (s : list K * list V),
       ∀ c, c ∈ s.1 →
            c ∈ vcs0 ∨
            ∃ v w, (v, w) ∈ pre ∧ (SELF = true ∨ v ≠ u) ∧
                   vcom !! v = Some c)
    _ _ _ Hrun).
  - intros c Hc. by left.
  - intros pre [v w] post [vs vo] s1 _ Hpre Hstep c. simpl in Hpre.
    assert (∀ c, c ∈ vs →
              c ∈ vcs0 ∨
              ∃ v0 w0, (v0, w0) ∈ pre ++ [(v, w)] ∧
                       (SELF = true ∨ v0 ≠ u) ∧ vcom !! v0 = Some c)
      as Hpre'.
    { intros k Hk. destruct (Hpre k Hk) as [?|(v0 & w0 & ? & ? & ?)];
        [by left|right].
      exists v0, w0. rewrite elem_of_app. auto. }
    unfold louvainScanEdge in Hstep.
    destruct (negb SELF && bool_decide (u = v)) eqn:Hskip.
    { simplify_eq. apply Hpre'. }
    unfold vget in Hstep.
    destruct (vcom !! v) as [c0|] eqn:Hc0; [|done]. simpl in Hstep.
    destruct (vo !! c0) as [o|]; [|done]. simpl in Hstep.
    destruct (vset vo c0 (o + w)); [|done]. simpl in Hstep. simplify_eq.
    simpl. destruct (decide (o = 0)); [|apply Hpre'].
    rewrite elem_of_app, elem_of_cons, elem_of_nil.
    intros [Hc|[->|[]]]; [by apply Hpre'|right].
    exists v, w. split_and!; [|  |done].
    + rewrite elem_of_app, elem_of_cons. auto.
    + destruct SELF; [by left|right]. simpl in Hskip.
      apply bool_decide_eq_false_1 in Hskip. congruence.
Qed.

Lemma louvainChooseCommunity_in_vcs dm SELF x u (vcom : list K)
    (vtot ctot : list V) vcs (vcout : list V) M R c e :
  louvainChooseCommunity dm SELF x u vcom vtot ctot vcs vcout M R
    = Some (c, e) →
  (c, e) = (0%nat, 0) ∨ c ∈ vcs.
Proof.
  unfold louvainChooseCommunity. destruct (vget vcom u) as [d|]; [|done].
  simpl. intros Hrun.
  apply (forEach_Some_invariant _
    (λ pre (r : K * V), r = (0%nat, 0) ∨ r.1 ∈ pre) _ _ _ Hrun).
  - by left.
  - intros pre k post [cm em] s1 _ Hpre Hstep.
    assert ((cm, em) = (0%nat, 0) ∨ cm ∈ pre ++ [k]) as Hpre'.
    { destruct Hpre as [?|?]; [by left|right]. rewrite elem_of_app. by left. }
    unfold louvainChooseStep in Hstep.
    destruct (negb SELF && bool_decide (k = d)); [by simplify_eq|].
    destruct (vget vcout k); [|done]. simpl in Hstep.
    destruct (vget vcout d); [|done]. simpl in Hstep.
    destruct (vget vtot u); [|done]. simpl in Hstep.
    destruct (vget ctot k); [|done]. simpl in Hstep.
    destruct (vget ctot d); [|done]. simpl in Hstep.
    destruct (decide _); simplify_eq; [|done].
    right. simpl. rewrite elem_of_app, elem_of_cons. auto.
Qed.

Section MoveKeeps.

Variable dm : V → V → V → V → V → V → V → V.
Variables (x : Graph) (vtot : list V) (M R E : V).
Hypothesis Hg : wfGraph x.

(** One visit: the pair chosen, and where the vertex goes. *)
Lemma louvainMoveVisit_neighbour st u :
  wfState x vtot st → (u < span x)%nat →
  ∃ c e st',
    visitChoice dm x vtot M R st u = Some (c, e) ∧
    (∀ el, louvainMoveVisit dm x vtot M R (st, el) u = Some (st', el + e)) ∧
    wfState x vtot st' ∧ 0 ≤ e ∧
    (c = 0%nat → st_vcom st' = st_vcom st ∧ st_ctot st' = st_ctot st) ∧
    (c ≠ 0%nat →
       0 < e ∧ (c < span x)%nat ∧
       (∃ v w, (v, w) ∈ edges x u ∧ v ≠ u ∧ st_vcom st !! v = Some c) ∧
       louvainChangeCommunity (st_vcom st) (st_ctot st) x u c vtot
       = Some (st_vcom st', st_ctot st')).
Proof.
  intros Hst Hu.
  destruct (louvainMoveVisit_spec dm x vtot M R st u Hg Hst Hu)
    as (c & e & d & st' & Hchoice & Hd & Hres & Hcl & Hst' & Hvisit
        & Hzero & Hmove).
  exists c, e, st'. split_and!; try done.
  - destruct Hres as [[= -> ->]|[He _]]; [done|by apply Qclt_le_weak].
  - intros Hc. split_and!; [|done| |by apply Hmove].
    { destruct Hres as [[= -> ->]|[He _]]; done. }
    unfold visitChoice in Hchoice. unfold louvainClearScan in Hchoice.
    destruct (forEach _ (st_vcs st) (st_vcout st)) as [vcout0|]; [|done].
    simpl in Hchoice.
    destruct (louvainScanCommunities false [] vcout0 x u (st_vcom st))
      as [[vcs1 vcout1]|] eqn:Hscan; [|done].
    simpl in Hchoice.
    apply louvainChooseCommunity_in_vcs in Hchoice as [[= -> ->]|Hin];
      [done|].
    destruct (louvainScanCommunities_vcs_source _ _ _ _ _ _ _ _ Hscan c Hin)
      as [Hnil|(v & w & Hvw & [?|Hvu] & Hcom)];
      [by apply elem_of_nil in Hnil|done|].
    by exists v, w.
Qed.

(** A property of (vcom, ctot) that every move to the community of a
    neighbour keeps is kept by a whole run of louvainMove. *)
Lemma louvainMove_preserves (P : list K → list V → Prop) L st :
  (∀ vcom ctot u c vcom' ctot',
     P vcom ctot → u ∈ vertexKeys x → (c < span x)%nat →
     (∃ v w, (v, w) ∈ edges x u ∧ v ≠ u ∧ vcom !! v = Some c) →
     louvainChangeCommunity vcom ctot x u c vtot = Some (vcom', ctot') →
     P vcom' ctot') →
  wfState x vtot st → P (st_vcom st) (st_ctot st) →
  ∃ st' l,
    louvainMove dm st x vtot M R E L = Some (st', l) ∧
    wfState x vtot st' ∧ P (st_vcom st') (st_ctot st').
Proof.
  intros Hstep. unfold louvainMove. generalize 0%Z as l.
  generalize (Z.to_nat L) as n. intros n. revert st.
  induction n as [|n IH]; intros st l Hst HP.
  - exists st, l. by split_and!.
  - simpl.
    destruct (forEach_preserves (louvainMoveVisit dm x vtot M R)
      (λ s, wfState x vtot s.1 ∧ P (st_vcom s.1) (st_ctot s.1))
      (vertexKeys x) (st, 0)) as ([st1 el] & Hsweep & Hst1 & HP1).
    { done. }
    { intros u [s el] Hu [Hs HPs]. simpl in Hs, HPs.
      destruct (louvainMoveVisit_neighbour s u Hs (vertexKeys_lt x u Hu))
        as (c & e & s' & _ & Hvisit & Hs' & _ & Hzero & Hmove).
      rewrite (Hvisit el). eexists. split; [done|]. simpl. split; [done|].
      destruct (decide (c = 0%nat)) as [Hc|Hc].
      - destruct (Hzero Hc) as [-> ->]. done.
      - destruct (Hmove Hc) as (_ & Hcl & Hnb & Hchange).
        by eapply Hstep. }
    unfold louvainMoveSweep. rewrite Hsweep. simpl in *.
    destruct (decide (el ≤ E)).
    + exists st1, (l + 1)%Z. by split_and!.
    + by apply IH.
Qed.

End MoveKeeps.

Lemma wfGraph_gPath : wfGraph gPath.
Proof.
  intros u v w Hin. unfold span, gPath. simpl.
  unfold edges, gPath in Hin. simpl in Hin.
  destruct u as [|[|[|[|u]]]]; simpl in Hin;
    rewrite ?elem_of_cons, ?elem_of_nil in Hin;
    intuition (simplify_eq; lia).
Defined.

Lemma wfState_gPath :
  wfState gPath vtotPath (mkMoveState vcomPath ctotPath [] (replicate 4 0)).
Proof. split; simpl; try reflexivity; repeat constructor; lia. Defined.

(** X8: a visit of louvainMove moves u, if at all, to the community of a
    neighbour of u other than u itself, and only at a strictly positive
    gain; else it leaves vcom and ctot as they were. *)
Theorem louvainMoveVisit_moves_to_neighbour dm x vtot M R st el u :
  wfGraph x → wfState x vtot st → (u < span x)%nat →
  ∃ st' e,
    louvainMoveVisit dm x vtot M R (st, el) u = Some (st', el + e) ∧
    ((st_vcom st' = st_vcom st ∧ st_ctot st' = st_ctot st) ∨
     (0 < e ∧
      ∃ v w c, (v, w) ∈ edges x u ∧ v ≠ u ∧ st_vcom st !! v = Some c ∧
               st_vcom st' = <[u:=c]> (st_vcom st))).
Proof.
  intros Hg Hst Hu.
  destruct (louvainMoveVisit_neighbour dm x vtot M R Hg st u Hst Hu)
    as (c & e & st' & _ & Hvisit & _ & _ & Hzero & Hmove).
  exists st', e. split; [done|].
  destruct (decide (c = 0%nat)) as [Hc|Hc]; [left; by apply Hzero|right].
  destruct (Hmove Hc) as (He & _ & (v & w & Hvw & Hvu & Hcom) & Hchange).
  split; [done|]. exists v, w, c. split_and!; try done.
  by apply louvainChangeCommunity_inv in Hchange as [-> _].
Qed.

Lemma louvainMoveVisit_moves_to_neighbour_witness :
  ∃ st' e,
    louvainMoveVisit deltaModularity gPath vtotPath MPath 1
      (mkMoveState vcomPath ctotPath [] (replicate 4 0), 0) 1
      = Some (st', 0 + e) ∧
    ((st_vcom st' = vcomPath ∧ st_ctot st' = ctotPath) ∨
     (0 < e ∧
      ∃ v w c, (v, w) ∈ edges gPath 1 ∧ v ≠ 1%nat ∧
               vcomPath !! v = Some c ∧
               st_vcom st' = <[1%nat:=c]> vcomPath)).
Proof.
  apply (louvainMoveVisit_moves_to_neighbour deltaModularity gPath vtotPath
           MPath 1 (mkMoveState vcomPath ctotPath [] (replicate 4 0)) 0
           1%nat).
  - apply wfGraph_gPath.
  - apply wfState_gPath.
  - unfold span, gPath. simpl. lia.
Defined.

Lemma elem_of_list_insert_inv {A} (l : list A) i a b :
  b ∈ <[i:=a]> l → b = a ∨ b ∈ l.
Proof.
  intros [j Hj]%list_elem_of_lookup_1.
  rewrite list_lookup_insert in Hj. case_decide; [left; congruence|right].
  by eapply list_elem_of_lookup_2.
Qed.

(** X9: louvainMove creates no community: every community id in vcom after
    the run was in vcom before it. *)
Theorem louvainMove_no_new_community dm x vtot M R E L st :
  wfGraph x → wfState x vtot st →
  ∃ st' l,
    louvainMove dm st x vtot M R E L = Some (st', l) ∧
    ∀ c, c ∈ st_vcom st' → c ∈ st_vcom st.
Proof.
  intros Hg Hst.
  destruct (louvainMove_preserves dm x vtot M R E Hg
              (λ vcom _, ∀ c, c ∈ vcom → c ∈ st_vcom st) L st)
    as (st' & l & Hrun & _ & HP); [|done|done|by exists st', l].
  intros vcom ctot u c vcom' ctot' HP _ _ (v & w & _ & _ & Hc) Hchange k Hk.
  apply louvainChangeCommunity_inv in Hchange as [-> _].
  apply elem_of_list_insert_inv in Hk as [->|Hk]; [|by apply HP].
  by eapply HP, list_elem_of_lookup_2.
Qed.

Lemma louvainMove_no_new_community_witness :
  ∃ st' l,
    louvainMove deltaModularity
      (mkMoveState vcomPath ctotPath [] (replicate 4 0)) gPath vtotPath
      MPath 1 0 500 = Some (st', l) ∧
    ∀ c, c ∈ st_vcom st' → c ∈ vcomPath.
Proof.
  apply (louvainMove_no_new_community deltaModularity gPath vtotPath MPath
           1 0 500 (mkMoveState vcomPath ctotPath [] (replicate 4 0))).
  - apply wfGraph_gPath.
  - apply wfState_gPath.
Defined.

(** X10: in exact arithmetic (V the rationals) louvainMove keeps ctot
    consistent with vcom: when ctot[c] is the sum of vtot[u] over the live
    vertices of community c before the run, for every c, it is so after
    it. *)
Theorem louvainMove_keeps_consistency dm x vtot M R E L st :
  wfGraph x → wfState x vtot st →
  (∀ c, (c < span x)%nat →
        st_ctot st !! c = Some (communityWeight x (st_vcom st) vtot c)) →
  ∃ st' l,
    louvainMove dm st x vtot M R E L = Some (st', l) ∧
    ∀ c, (c < span x)%nat →
         st_ctot st' !! c = Some (communityWeight x (st_vcom st') vtot c).
Proof.
  intros Hg Hst Hcons.
  destruct (louvainMove_preserves dm x vtot M R E Hg
              (λ vcom ctot, levelInv x vtot (vcom, ctot)) L st)
    as (st' & l & Hrun & _ & HP); [|done| |].
  - intros vcom ctot u c vcom' ctot' HP Hu Hc _ Hchange.
    destruct (louvainChangeCommunity_levelInv x vtot (vcom, ctot) u c)
      as (s' & Hs' & Hinv); try done.
    + by apply (wf_vtot _ _ _ Hst).
    + by apply elem_of_vertexKeys.
    + simpl in Hs'. rewrite Hchange in Hs'. by simplify_eq.
  - unfold levelInv. simpl. split_and!.
    + apply (wf_vcom _ _ _ Hst).
    + apply (wf_ctot _ _ _ Hst).
    + intros u Hu.
      destruct (lookup_lt_is_Some_2 (st_vcom st) u) as [d Hd].
      { rewrite (wf_vcom _ _ _ Hst). by apply vertexKeys_lt. }
      exists d. split; [done|].
      pose proof (wf_vcom_lt _ _ _ Hst) as Hlt.
      rewrite list.Forall_forall in Hlt.
      by eapply Hlt, list_elem_of_lookup_2.
    + done.
  - exists st', l. split; [done|]. apply HP.
Qed.

Lemma louvainMove_keeps_consistency_witness :
  ∃ st' l,
    louvainMove deltaModularity
      (mkMoveState vcomPath ctotPath [] (replicate 4 0)) gPath vtotPath
      MPath 1 0 500 = Some (st', l) ∧
    ∀ c, (c < span gPath)%nat →
         st_ctot st' !! c
         = Some (communityWeight gPath (st_vcom st') vtotPath c).
Proof.
  apply (louvainMove_keeps_consistency deltaModularity gPath vtotPath MPath
           1 0 500 (mkMoveState vcomPath ctotPath [] (replicate 4 0))).
  - apply wfGraph_gPath.
  - apply wfState_gPath.
  - intros c Hc. unfold span, gPath in Hc. simpl in Hc.
    destruct c as [|[|[|[|c]]]]; [compute_done..|lia].
Defined.

(** X11: in exact arithmetic (V the rationals) louvainMove keeps the total
    of ctot. *)
Theorem louvainMove_keeps_total dm x vtot M R E L st :
  wfGraph x → wfState x vtot st →
  ∃ st' l,
    louvainMove dm st x vtot M R E L = Some (st', l) ∧
    sumV (st_ctot st') = sumV (st_ctot st).
Proof.
  intros Hg Hst.
  destruct (louvainMove_preserves dm x vtot M R E Hg
              (λ _ ctot, sumV ctot = sumV (st_ctot st)) L st)
    as (st' & l & Hrun & _ & HP); [|done|done|by exists st', l].
  intros vcom ctot u c vcom' ctot' HP _ _ _ Hchange.
  apply louvainChangeCommunity_inv in Hchange as [_ ->]. done.
Qed.

Lemma louvainMove_keeps_total_witness :
  ∃ st' l,
    louvainMove deltaModularity
      (mkMoveState vcomPath ctotPath [] (replicate 4 0)) gPath vtotPath
      MPath 1 0 500 = Some (st', l) ∧
    sumV (st_ctot st') = sumV ctotPath.
Proof.
  apply (louvainMove_keeps_total deltaModularity gPath vtotPath MPath
           1 0 500 (mkMoveState vcomPath ctotPath [] (replicate 4 0))).
  - apply wfGraph_gPath.
  - apply wfState_gPath.
Defined.

(** ** Convergence *)

Section Converged.

Variable dm : V → V → V → V → V → V → V → V.
Variables (x : Graph) (vtot : list V) (M R : V).
Hypothesis Hg : wfGraph x.

(** The running sum [el] never decreases, and stays put only when no
    vertex moves. *)
Lemma louvainMoveVisits_monotone keys st el :
  Forall (λ u, u < span x)%nat keys → wfState x vtot st →
  ∃ st' el',
    forEach (louvainMoveVisit dm x vtot M R) keys (st, el) = Some (st', el') ∧
    wfState x vtot st' ∧ el ≤ el' ∧
    (el' ≤ el → st_vcom st' = st_vcom st ∧ st_ctot st' = st_ctot st).
Proof.
  intros Hkeys. revert st el.
  induction Hkeys as [|u keys Hu Hkeys IH]; intros st el Hst.
  - exists st, el. by split_and!.
  - destruct (louvainMoveVisit_neighbour dm x vtot M R Hg st u Hst Hu)
      as (c & e & st1 & _ & Hvisit & Hst1 & He & Hzero & Hmove).
    destruct (IH st1 (el + e) Hst1) as (st' & el' & Hrun & Hst' & Hle & Hfix).
    assert (el ≤ el + e) as Hstep.
    { rewrite <-(Qcplus_0_r el) at 1. by apply Qcplus_le_mono_l. }
    exists st', el'. rewrite forEach_cons, (Hvisit el). simpl.
    split_and!; [done|done|by apply Qcle_trans with (el + e)|].
    intros Hback.
    assert (e ≤ 0) as He0.
    { apply (Qcplus_le_mono_l _ _ el). rewrite Qcplus_0_r.
      by apply Qcle_trans with el'. }
    destruct (decide (c = 0%nat)) as [Hc|Hc].
    + destruct (Hzero Hc) as [<- <-]. apply Hfix.
      by apply Qcle_trans with el.
    + destruct (Hmove Hc) as [Hpos _]. by apply Qclt_not_le in Hpos.
Qed.

Lemma sweeps_S_last i st :
  sweeps dm x vtot M R (S i) st
  = stp ← sweeps dm x vtot M R i st;
    '(s, _) ← louvainMoveSweep dm x vtot M R stp; Some s.
Proof.
  revert st. induction i as [|i IH]; intros st.
  - simpl. by destruct (louvainMoveSweep dm x vtot M R st) as [[??]|].
  - change (sweeps dm x vtot M R (S (S i)) st)
      with ('(s, _) ← louvainMoveSweep dm x vtot M R st;
            sweeps dm x vtot M R (S i) s).
    change (sweeps dm x vtot M R (S i) st)
      with ('(s, _) ← louvainMoveSweep dm x vtot M R st;
            sweeps dm x vtot M R i s).
    destruct (louvainMoveSweep dm x vtot M R st) as [[s el]|]; [|done].
    simpl. apply IH.
Qed.

End Converged.

(** X12: in a sweep of louvainMove el is never negative, and a sweep that
    ends with el <= 0 has moved no vertex: vcom and ctot are as before. *)
Theorem louvainMoveSweep_zero_gain_no_move dm x vtot M R st :
  wfGraph x → wfState x vtot st →
  ∃ st' el,
    louvainMoveSweep dm x vtot M R st = Some (st', el) ∧
    0 ≤ el ∧
    (el ≤ 0 → st_vcom st' = st_vcom st ∧ st_ctot st' = st_ctot st).
Proof.
  intros Hg Hst. unfold louvainMoveSweep.
  destruct (louvainMoveVisits_monotone dm x vtot M R Hg (vertexKeys x) st 0)
    as (st' & el & Hrun & _ & Hle & Hfix); [|done|by exists st', el].
  apply list.Forall_forall. apply vertexKeys_lt.
Qed.

Lemma louvainMoveSweep_zero_gain_no_move_witness :
  ∃ st' el,
    louvainMoveSweep deltaModularity gPath vtotPath MPath 1
      (mkMoveState vcomPath ctotPath [] (replicate 4 0)) = Some (st', el) ∧
    0 ≤ el ∧
    (el ≤ 0 → st_vcom st' = vcomPath ∧ st_ctot st' = ctotPath).
Proof.
  apply (louvainMoveSweep_zero_gain_no_move deltaModularity gPath vtotPath
           MPath 1 (mkMoveState vcomPath ctotPath [] (replicate 4 0))).
  - apply wfGraph_gPath.
  - apply wfState_gPath.
Defined.

(** X13: with a tolerance E <= 0, when louvainMove returns before the
    bound L its last sweep has moved no vertex: the vcom and ctot returned
    are those the sweep started from. *)
Theorem louvainMove_converged_is_stable dm x vtot M R E L st :
  wfGraph x → wfState x vtot st → E ≤ 0 →
  ∃ st' k,
    louvainMove dm st x vtot M R E L = Some (st', Z.of_nat k) ∧
    ((Z.of_nat k < L)%Z →
       ∃ stp el,
         sweeps dm x vtot M R (k - 1) st = Some stp ∧
         louvainMoveSweep dm x vtot M R stp = Some (st', el) ∧
         st_vcom st' = st_vcom stp ∧ st_ctot st' = st_ctot stp).
Proof.
  intros Hg Hst HE. unfold louvainMove.
  destruct (louvainMoveLoop_spec dm x vtot M R E Hg (Z.to_nat L) 0%Z st Hst)
    as (st' & k & Hrun & Hk & Hk0 & Hsw & _ & Hlast).
  exists st', k. split; [done|]. intros Hlt.
  destruct (Hlast ltac:(lia)) as (el & Hel & HelE).
  destruct k as [|j]; [lia|]. replace (S j - 1)%nat with j in * by lia.
  destruct (sweepGain_sum dm x vtot M R Hg j st Hst)
    as (stp & es & Hstp & Hwf & _ & _).
  rewrite sweeps_S_last, Hstp in Hsw. simpl in Hsw.
  unfold sweepGain in Hel. rewrite Hstp in Hel. simpl in Hel.
  destruct (louvainMoveSweep_zero_gain_no_move dm x vtot M R stp Hg Hwf)
    as (s2 & el2 & Hs2 & _ & Hfix).
  rewrite Hs2 in Hsw, Hel. simpl in Hsw, Hel. simplify_eq.
  exists stp, el. split_and!; try done; apply Hfix;
    by apply Qcle_trans with E.
Qed.

Lemma louvainMove_converged_is_stable_witness :
  ∃ st' k,
    louvainMove deltaModularity
      (mkMoveState vcomPath ctotPath [] (replicate 4 0)) gPath vtotPath
      MPath 1 0 500 = Some (st', Z.of_nat k) ∧
    ((Z.of_nat k < 500)%Z →
       ∃ stp el,
         sweeps deltaModularity gPath vtotPath MPath 1 (k - 1)
           (mkMoveState vcomPath ctotPath [] (replicate 4 0)) = Some stp ∧
         louvainMoveSweep deltaModularity gPath vtotPath MPath 1 stp
           = Some (st', el) ∧
         st_vcom st' = st_vcom stp ∧ st_ctot st' = st_ctot stp).
Proof.
  apply (louvainMove_converged_is_stable deltaModularity gPath vtotPath
           MPath 1 0 500 (mkMoveState vcomPath ctotPath [] (replicate 4 0))).
  - apply wfGraph_gPath.
  - apply wfState_gPath.
  - done.
Defined.

(** ** Aggregation *)

(** X14: louvainCommunityVertices is the inverted index of vcom: entry c
    lists, in the order of enumeration, the live vertices u with
    vcom[u] = c, and there is one entry for every key below the span. *)
Theorem louvainCommunityVertices_inverted_index x (vcom : list K) :
  (∀ u, u ∈ vertexKeys x → ∃ c, vcom !! u = Some c ∧ (c < span x)%nat) →
  ∃ comv,
    louvainCommunityVertices x vcom = Some comv ∧
    length comv = span x ∧
    ∀ c, (c < span x)%nat →
         comv !! c = Some (filter (λ u, vcom !! u = Some c) (vertexKeys x)).
Proof.
  intros Hcom. unfold louvainCommunityVertices.
  edestruct (forEach_invariant
    (λ (a : list (list K)) u,
       c ← vget vcom u; m ← vget a c; vset a c (m ++ [u]))
    (λ pre (a : list (list K)),
       length a = span x ∧
       ∀ c, (c < span x)%nat →
            a !! c = Some (filter (λ u, vcom !! u = Some c) pre))
    (vertexKeys x) (replicate (span x) [])) as (comv & Hrun & HP).
  - split; [apply length_replicate|]. intros c Hc.
    by rewrite lookup_replicate_2.
  - intros pre u post a Hl (Hlen & Hidx).
    destruct (Hcom u) as (c & Hc & Hcl).
    { rewrite Hl, elem_of_app, elem_of_cons. auto. }
    unfold vget. rewrite Hc. simpl. rewrite (Hidx c Hcl). simpl.
    rewrite vset_lt by lia. eexists. split; [done|].
    rewrite length_insert. split; [done|]. intros k Hk.
    rewrite list.filter_app, filter_cons, filter_nil.
    destruct (decide (k = c)) as [->|Hne].
    + rewrite list_lookup_insert_eq by lia. by rewrite decide_True.
    + rewrite list_lookup_insert_ne by done.
      rewrite decide_False, app_nil_r by congruence. by apply Hidx.
  - by exists comv.
Qed.

Lemma louvainCommunityVertices_inverted_index_witness :
  ∃ comv,
    louvainCommunityVertices gPath vcomPath = Some comv ∧
    length comv = span gPath ∧
    ∀ c, (c < span gPath)%nat →
         comv !! c
         = Some (filter (λ u, vcomPath !! u = Some c) (vertexKeys gPath)).
Proof.
  apply (louvainCommunityVertices_inverted_index gPath vcomPath).
  intros u. rewrite vertexKeys_gPath, !elem_of_cons, elem_of_nil.
  intros [->|[->|[->|[->|[]]]]]; eexists; (split; [reflexivity|]);
    unfold span, gPath; simpl; lia.
Defined.

(** X15: whatever the clustering, louvainAggregate indexes outside its
    empty vcout, and so gives no graph, as soon as some live vertex has an
    edge. *)
Theorem louvainAggregate_fails_on_edge a x (vcom : list K) u :
  u ∈ vertexKeys x → edges x u ≠ [] → louvainAggregate a x vcom = None.
Proof.
  intros Hu Hedge.
  destruct (louvainAggregate a x vcom) as [a'|] eqn:Hrun; [|done].
  destruct Hedge. by eapply louvainAggregate_Some_no_edges.
Qed.

Lemma louvainAggregate_fails_on_edge_witness :
  louvainAggregate (mkGraph []) gPath vcomPath = None.
Proof.
  apply (louvainAggregate_fails_on_edge (mkGraph []) gPath vcomPath 1%nat).
  - rewrite vertexKeys_gPath, !elem_of_cons. auto.
  - done.
Defined.

(** ** Lookups *)

(** X16: two lookups in a row are one lookup in the composed vector:
    looking a up in vcom1 and the result in vcom2 gives what looking a up
    in (vcom1 looked up in vcom2) gives. *)
Theorem louvainLookupCommunities_compose (a vcom1 vcom2 : list K) :
  Forall (λ v, v < length vcom1)%nat a →
  Forall (λ v, v < length vcom2)%nat vcom1 →
  ∃ a1 vcom12 r,
    louvainLookupCommunities a vcom1 = Some a1 ∧
    louvainLookupCommunities vcom1 vcom2 = Some vcom12 ∧
    louvainLookupCommunities a1 vcom2 = Some r ∧
    louvainLookupCommunities a vcom12 = Some r.
Proof.
  intros Ha Hv1.
  destruct (louvainLookupCommunities_spec a vcom1 Ha)
    as (a1 & Ha1 & Hl1 & Hg1).
  destruct (louvainLookupCommunities_spec vcom1 vcom2 Hv1)
    as (v12 & Hv12 & Hl12 & Hg12).
  assert (Forall (λ v, v < length vcom2)%nat a1) as Ha1v.
  { apply list.Forall_forall. intros c [i Hi]%list_elem_of_lookup_1.
    destruct (lookup_lt_is_Some_2 a i) as [v Hv].
    { rewrite <-Hl1. by eapply lookup_lt_Some. }
    rewrite (Hg1 i v Hv) in Hi. rewrite list.Forall_forall in Hv1.
    by eapply Hv1, list_elem_of_lookup_2. }
  destruct (louvainLookupCommunities_spec a1 vcom2 Ha1v)
    as (r & Hr & Hlr & Hgr).
  destruct (louvainLookupCommunities_spec a v12) as (r' & Hr' & Hlr' & Hgr').
  { by rewrite Hl12. }
  exists a1, v12, r. split_and!; try done. rewrite Hr'. f_equal.
  apply list_eq. intros i.
  destruct (a !! i) as [v|] eqn:Hv.
  - rewrite (Hgr' i v Hv).
    destruct (lookup_lt_is_Some_2 vcom1 v) as [c Hc].
    { rewrite list.Forall_forall in Ha.
      by eapply Ha, list_elem_of_lookup_2. }
    rewrite (Hg12 v c Hc). symmetry. apply Hgr. by rewrite (Hg1 i v Hv).
  - apply lookup_ge_None in Hv.
    rewrite !lookup_ge_None_2; [done|lia|lia].
Qed.

Lemma louvainLookupCommunities_compose_witness :
  ∃ a1 vcom12 r,
    louvainLookupCommunities [0; 1; 2; 3]%nat [0; 1; 1; 3]%nat = Some a1 ∧
    louvainLookupCommunities [0; 1; 1; 3]%nat [0; 0; 2; 0]%nat
      = Some vcom12 ∧
    louvainLookupCommunities a1 [0; 0; 2; 0]%nat = Some r ∧
    louvainLookupCommunities [0; 1; 2; 3]%nat vcom12 = Some r.
Proof.
  apply (louvainLookupCommunities_compose [0; 1; 2; 3]%nat [0; 1; 1; 3]%nat
           [0; 0; 2; 0]%nat); repeat constructor; simpl; lia.
Defined.

(** X17: the identity vector is neutral for the lookup on both sides:
    looking a up in the identity gives a, and looking the identity up in
    vcom gives vcom. *)
Theorem louvainLookupCommunities_identity (a vcom : list K) n :
  Forall (λ v, v < n)%nat a →
  louvainLookupCommunities a (seq 0 n) = Some a ∧
  louvainLookupCommunities (seq 0 (length vcom)) vcom = Some vcom.
Proof.
  intros Ha. split.
  - destruct (louvainLookupCommunities_spec a (seq 0 n))
      as (a' & -> & Hlen & Hget); [by rewrite length_seq|].
    f_equal. apply list_eq. intros i.
    destruct (a !! i) as [v|] eqn:Hv.
    + rewrite (Hget i v Hv). apply lookup_seq_lt.
      rewrite list.Forall_forall in Ha.
      by eapply Ha, list_elem_of_lookup_2.
    + apply lookup_ge_None in Hv. apply lookup_ge_None_2. lia.
  - destruct (louvainLookupCommunities_spec (seq 0 (length vcom)) vcom)
      as (a' & -> & Hlen & Hget).
    { apply list.Forall_forall. intros v Hv%elem_of_seq. lia. }
    f_equal. apply list_eq. intros i. rewrite length_seq in Hlen.
    destruct (decide (i < length vcom)%nat) as [Hi|Hi].
    + apply (Hget i i). by apply lookup_seq_lt.
    + rewrite !lookup_ge_None_2; [done|lia|lia].
Qed.

Lemma louvainLookupCommunities_identity_witness :
  louvainLookupCommunities vcomPath (seq 0 4) = Some vcomPath ∧
  louvainLookupCommunities (seq 0 (length vcomPath)) vcomPath
    = Some vcomPath.
Proof.
  apply (louvainLookupCommunities_identity vcomPath vcomPath 4).
  repeat constructor; simpl; lia.
Defined.

(** ** louvainAffectedVertices *)

Lemma flags_replicate n : flags n (replicate n false) (λ _, False).
Proof.
  split; [apply length_replicate|]. intros w. split; [|done].
  by intros [? _]%lookup_replicate.
Qed.

Lemma flags_set n l (φ : K → Prop) u :
  flags n l φ → (u < n)%nat → flags n (<[u:=true]> l) (λ w, w = u ∨ φ w).
Proof.
  intros [Hlen Hφ] Hu. split; [by rewrite length_insert|]. intros w.
  destruct (decide (w = u)) as [->|Hne].
  - rewrite list_lookup_insert_eq by lia. split; auto.
  - rewrite list_lookup_insert_ne by done. rewrite Hφ. split; [auto|].
    by intros [?|?].
Qed.

Lemma flags_iff n l (φ ψ : K → Prop) :
  flags n l φ → (∀ w, φ w ↔ ψ w) → flags n l ψ.
Proof. intros [Hlen Hφ] Hiff. split; [done|]. intros w. by rewrite Hφ. Qed.

Lemma flags_lt n l (φ : K → Prop) w : flags n l φ → φ w → (w < n)%nat.
Proof.
  intros [Hlen Hφ] Hw. apply Hφ in Hw. apply lookup_lt_Some in Hw. lia.
Qed.

(** The loop that flags the end points of the edges of a vertex. *)
Lemma louvainAffected_neighbours n l (φ : K → Prop) (keys : list K) :
  flags n l φ → Forall (λ v, v < n)%nat keys →
  ∃ l', forEach (λ vs v, vset vs v true) keys l = Some l' ∧
        flags n l' (λ w, w ∈ keys ∨ φ w).
Proof.
  intros Hl Hkeys.
  edestruct (forEach_invariant (λ (vs : list bool) v, vset vs v true)
    (λ pre (vs : list bool), flags n vs (λ w, w ∈ pre ∨ φ w))
    keys l) as (l' & Hrun & HP); [| |by exists l'].
  - eapply flags_iff; [done|]. intros w. rewrite elem_of_nil. tauto.
  - intros pre v post vs Hk Hvs.
    assert (v < n)%nat as Hv.
    { rewrite list.Forall_forall in Hkeys. apply Hkeys.
      rewrite Hk, elem_of_app, elem_of_cons. auto. }
    rewrite vset_lt by (destruct Hvs as [-> _]; lia).
    eexists. split; [done|].
    eapply flags_iff; [by apply flags_set|]. intros w. simpl.
    rewrite elem_of_app, elem_of_cons, elem_of_nil. tauto.
Qed.

Section Affected.

Variable dm : V → V → V → V → V → V → V → V.
Variables (x : Graph) (vcom : list K) (vtot ctot : list V) (M R : V).
Hypothesis Hg : wfGraph x.
Hypothesis Hlen : length vcom = span x.
Hypothesis Hcom : Forall (λ c, c < span x)%nat vcom.

Lemma louvainAffected_deletions (dels : list (K * K)) :
  Forall (λ e, e.1 < span x ∧ e.2 < span x)%nat dels →
  ∃ vs ns cs,
    forEach (louvainAffectedDeletion vcom) dels
      (mkMarks (replicate (span x) false) (replicate (span x) false)
               (replicate (span x) false))
    = Some (mkMarks vs ns cs) ∧
    flags (span x) vs (λ w, ∃ v, (w, v) ∈ dels) ∧
    flags (span x) ns (λ w, ∃ v, (w, v) ∈ dels) ∧
    flags (span x) cs (λ c, ∃ u v, (u, v) ∈ dels ∧ vcom !! v = Some c).
Proof.
  intros Hdels.
  edestruct (forEach_invariant (louvainAffectedDeletion vcom)
    (λ pre m,
       flags (span x) (mk_vertices m) (λ w, ∃ v, (w, v) ∈ pre) ∧
       flags (span x) (mk_neighbors m) (λ w, ∃ v, (w, v) ∈ pre) ∧
       flags (span x) (mk_communities m)
             (λ c, ∃ u v, (u, v) ∈ pre ∧ vcom !! v = Some c))
    dels) as ([vs ns cs] & Hrun & HP); [| |by exists vs, ns, cs].
  - simpl. split_and!; (eapply flags_iff; [apply flags_replicate|]);
      intros w; split; try done.
    + by intros [v ?%elem_of_nil].
    + by intros [v ?%elem_of_nil].
    + by intros (u & v & ?%elem_of_nil & _).
  - intros pre [u v] post [vs ns cs] Hl (Hvs & Hns & Hcs).
    simpl in Hvs, Hns, Hcs.
    rewrite list.Forall_forall in Hdels. destruct (Hdels (u, v)) as [Hu Hv].
    { rewrite Hl, elem_of_app, elem_of_cons. auto. }
    simpl in Hu, Hv.
    destruct (lookup_lt_is_Some_2 vcom v) as [c Hc]; [lia|].
    assert (c < span x)%nat as Hcl.
    { rewrite list.Forall_forall in Hcom.
      by eapply Hcom, list_elem_of_lookup_2. }
    unfold louvainAffectedDeletion, vget. cbv beta iota.
    rewrite (vset_lt vs u) by (destruct Hvs as [-> _]; lia). simpl.
    rewrite (vset_lt ns u) by (destruct Hns as [-> _]; lia). simpl.
    rewrite Hc. simpl.
    rewrite (vset_lt cs c) by (destruct Hcs as [-> _]; lia). simpl.
    eexists. split; [done|]. simpl. split_and!.
    + eapply flags_iff; [by apply flags_set|]. intros w. simpl. split.
      * intros [->|[v' Hv']]; [exists v|exists v'];
          rewrite elem_of_app, elem_of_cons; auto.
      * intros [v' Hv']. rewrite elem_of_app, elem_of_cons, elem_of_nil in Hv'.
        destruct Hv' as [?|[[= -> ->]|[]]]; eauto.
    + eapply flags_iff; [by apply flags_set|]. intros w. simpl. split.
      * intros [->|[v' Hv']]; [exists v|exists v'];
          rewrite elem_of_app, elem_of_cons; auto.
      * intros [v' Hv']. rewrite elem_of_app, elem_of_cons, elem_of_nil in Hv'.
        destruct Hv' as [?|[[= -> ->]|[]]]; eauto.
    + eapply flags_iff; [by apply flags_set|]. intros k. simpl. split.
      * intros [->|(u' & v' & Hin & Hk)].
        -- exists u, v. rewrite elem_of_app, elem_of_cons. auto.
        -- exists u', v'. rewrite elem_of_app. auto.
      * intros (u' & v' & Hin & Hk).
        rewrite elem_of_app, elem_of_cons, elem_of_nil in Hin.
        destruct Hin as [?|[[= -> ->]|[]]]; [eauto 6|left; congruence].
Qed.

(** The step of the insertion loop on an empty [vcs]: nothing of the
    weights is looked at. *)
Lemma louvainAffectedInsertion_nil vcout vs ns cs u v :
  louvainAffectedInsertion dm x vcom vtot ctot M R
    ([], vcout, mkMarks vs ns cs) (u, v)
  = (_ ← vget vcom u; vs ← vset vs u true; ns ← vset ns u true;
     cs ← vset cs 0%nat true; Some ([], vcout, mkMarks vs ns cs)).
Proof.
  unfold louvainAffectedInsertion, louvainClearScan, louvainChooseCommunity.
  simpl. by destruct (vget vcom u).
Qed.

Lemma louvainAffected_insertions (ins : list (K * K)) vcout vs ns cs
    (S D : K → Prop) :
  Forall (λ e, e.1 < span x)%nat ins →
  flags (span x) vs S → flags (span x) ns S → flags (span x) cs D →
  ∃ vs' ns' cs',
    forEach (louvainAffectedInsertion dm x vcom vtot ctot M R) ins
      ([], vcout, mkMarks vs ns cs)
    = Some ([], vcout, mkMarks vs' ns' cs') ∧
    flags (span x) vs' (λ w, S w ∨ ∃ v, (w, v) ∈ ins) ∧
    flags (span x) ns' (λ w, S w ∨ ∃ v, (w, v) ∈ ins) ∧
    flags (span x) cs' (λ c, D c ∨ (c = 0%nat ∧ ins ≠ [])).
Proof.
  intros Hins Hvs Hns Hcs.
  edestruct (forEach_invariant
    (louvainAffectedInsertion dm x vcom vtot ctot M R)
    (λ pre s,
       s.1 = ([], vcout) ∧
       flags (span x) (mk_vertices s.2) (λ w, S w ∨ ∃ v, (w, v) ∈ pre) ∧
       flags (span x) (mk_neighbors s.2) (λ w, S w ∨ ∃ v, (w, v) ∈ pre) ∧
       flags (span x) (mk_communities s.2)
             (λ c, D c ∨ (c = 0%nat ∧ pre ≠ [])))
    ins ([], vcout, mkMarks vs ns cs))
    as ([[vcs1 vcout1] [vs' ns' cs']] & Hrun & Hs & HP).
  - simpl. split_and!; [done|..]; (eapply flags_iff; [done|]); intros w;
      split; auto.
    + by intros [?|[v ?%elem_of_nil]].
    + by intros [?|[v ?%elem_of_nil]].
    + by intros [?|[_ ?]].
  - intros pre [u v] post [[vcs1 vcout1] [vs1 ns1 cs1]] Hl
      (Hs & Hvs1 & Hns1 & Hcs1). simpl in Hs, Hvs1, Hns1, Hcs1.
    simplify_eq. rewrite louvainAffectedInsertion_nil.
    rewrite list.Forall_forall in Hins. pose proof (Hins (u, v)) as Hu.
    simpl in Hu. specialize (Hu ltac:(rewrite elem_of_app, elem_of_cons; auto)).
    destruct (vget_lt vcom u) as [d ->]; [lia|]. simpl.
    rewrite (vset_lt vs1 u) by (destruct Hvs1 as [-> _]; lia). simpl.
    rewrite (vset_lt ns1 u) by (destruct Hns1 as [-> _]; lia). simpl.
    rewrite (vset_lt cs1 0%nat) by (destruct Hcs1 as [-> _]; lia). simpl.
    eexists. split; [done|]. simpl. split_and!; [done|..].
    + eapply flags_iff; [by apply flags_set|]. intros w. simpl. split.
      * intros [->|[?|[v' Hv']]]; [right; exists v|by left|right; exists v'];
          rewrite elem_of_app, elem_of_cons; auto.
      * intros [?|[v' Hv']]; [auto|].
        rewrite elem_of_app, elem_of_cons, elem_of_nil in Hv'.
        destruct Hv' as [?|[[= -> ->]|[]]]; eauto.
    + eapply flags_iff; [by apply flags_set|]. intros w. simpl. split.
      * intros [->|[?|[v' Hv']]]; [right; exists v|by left|right; exists v'];
          rewrite elem_of_app, elem_of_cons; auto.
      * intros [?|[v' Hv']]; [auto|].
        rewrite elem_of_app, elem_of_cons, elem_of_nil in Hv'.
        destruct Hv' as [?|[[= -> ->]|[]]]; eauto.
    + eapply flags_iff; [apply flags_set; [done|lia]|]. intros k. simpl.
      split.
      * intros [->|[?|[-> _]]]; [right|by left|right];
          (split; [done|by destruct pre]).
      * intros [?|[-> _]]; auto.
  - simpl in Hs. simplify_eq. by exists vs', ns', cs'.
Qed.

Lemma louvainAffected_expand (vs ns cs : list bool) (S C : K → Prop) :
  flags (span x) vs S → flags (span x) ns S → flags (span x) cs C →
  ∃ r,
    forEach (louvainAffectedExpand x vcom ns cs) (vertexKeys x) vs = Some r ∧
    flags (span x) r
      (λ w, S w ∨
            (∃ u, hasVertex x u = true ∧ S u ∧ w ∈ edgeKeys x u) ∨
            (hasVertex x w = true ∧ ∃ c, vcom !! w = Some c ∧ C c)).
Proof.
  intros Hvs Hns Hcs.
  edestruct (forEach_invariant (louvainAffectedExpand x vcom ns cs)
    (λ pre (r : list bool),
       flags (span x) r
         (λ w, S w ∨ (∃ u, u ∈ pre ∧ S u ∧ w ∈ edgeKeys x u) ∨
               (w ∈ pre ∧ ∃ c, vcom !! w = Some c ∧ C c)))
    (vertexKeys x) vs) as (r & Hrun & HP).
  - eapply flags_iff; [done|]. intros w. split; [auto|].
    intros [?|[(u & ?%elem_of_nil & _)|[?%elem_of_nil _]]]; done.
  - intros pre u post r Hl Hr.
    assert (u ∈ vertexKeys x) as Hu.
    { rewrite Hl, elem_of_app, elem_of_cons. auto. }
    pose proof (vertexKeys_lt x u Hu) as Hul.
    destruct (lookup_lt_is_Some_2 ns u) as [nb Hnb].
    { destruct Hns as [-> _]. lia. }
    destruct (lookup_lt_is_Some_2 vcom u) as [c Hc]; [lia|].
    assert (c < span x)%nat as Hcl.
    { rewrite list.Forall_forall in Hcom.
      by eapply Hcom, list_elem_of_lookup_2. }
    destruct (lookup_lt_is_Some_2 cs c) as [cm Hcm].
    { destruct Hcs as [-> _]. lia. }
    assert (∃ r1,
      (if nb then forEach (λ vs v, vset vs v true) (edgeKeys x u) r
       else Some r) = Some r1 ∧
      flags (span x) r1
        (λ w, S w ∨ (∃ u0, u0 ∈ pre ++ [u] ∧ S u0 ∧ w ∈ edgeKeys x u0) ∨
              (w ∈ pre ∧ ∃ c, vcom !! w = Some c ∧ C c)))
      as (r1 & Hr1 & Hflags1).
    { destruct nb.
      - destruct (louvainAffected_neighbours _ _ _ (edgeKeys x u) Hr)
          as (r1 & Hr1 & Hf1).
        { apply list.Forall_forall. intros v [[v' w] [-> Hin]]%list_elem_of_fmap.
          by eapply Hg. }
        exists r1. split; [done|]. eapply flags_iff; [done|]. intros w. simpl.
        assert (S u) as HSu by by apply Hns.
        split.
        + intros [?|[?|[(u0 & ? & ? & ?)|?]]]; auto.
          * right. left. exists u. rewrite elem_of_app, elem_of_cons. auto.
          * right. left. exists u0. rewrite elem_of_app. auto.
        + intros [?|[(u0 & Hu0 & ? & ?)|?]]; auto.
          rewrite elem_of_app, elem_of_cons, elem_of_nil in Hu0.
          destruct Hu0 as [?|[->|[]]]; [|auto]. right. right. left. eauto.
      - exists r. split; [done|]. eapply flags_iff; [done|]. intros w. simpl.
        assert (¬ S u) as HSu.
        { intros HS. apply Hns in HS. congruence. }
        split.
        + intros [?|[(u0 & ? & ? & ?)|?]]; auto.
          right. left. exists u0. rewrite elem_of_app. auto.
        + intros [?|[(u0 & Hu0 & ? & ?)|?]]; auto.
          rewrite elem_of_app, elem_of_cons, elem_of_nil in Hu0.
          destruct Hu0 as [?|[->|[]]]; [|done]. right. left. eauto. }
    unfold louvainAffectedExpand, vget. rewrite Hnb. simpl.
    rewrite Hr1. simpl. rewrite Hc. simpl. rewrite Hcm. simpl.
    destruct cm.
    + rewrite vset_lt by (destruct Hflags1 as [-> _]; lia).
      eexists. split; [done|].
      eapply flags_iff; [by apply flags_set|]. intros w. simpl.
      assert (C c) as HCc by by apply Hcs.
      split.
      * intros [->|[HS|[Hn|[Hw Hcw]]]].
        -- right. right. split; [|by eauto].
           rewrite elem_of_app, elem_of_cons. auto.
        -- by left.
        -- right. by left.
        -- right. right. split; [|done]. rewrite elem_of_app. auto.
      * intros [HS|[Hn|[Hw Hcw]]].
        -- right. by left.
        -- right. right. by left.
        -- rewrite elem_of_app, elem_of_cons, elem_of_nil in Hw.
           destruct Hw as [Hw|[->|[]]]; [|by left].
           right. right. right. done.
    + exists r1. split; [done|].
      eapply flags_iff; [done|]. intros w. simpl.
      assert (¬ C c) as HCc.
      { intros HC. apply Hcs in HC. congruence. }
      split.
      * intros [HS|[Hn|[Hw Hcw]]].
        -- by left.
        -- right. by left.
        -- right. right. split; [|done]. rewrite elem_of_app. auto.
      * intros [HS|[Hn|[Hw (c' & Hc' & HC')]]].
        -- by left.
        -- right. by left.
        -- rewrite elem_of_app, elem_of_cons, elem_of_nil in Hw.
           destruct Hw as [Hw|[->|[]]]; [|by simplify_eq].
           right. right. eauto.
  - exists r. split; [done|]. eapply flags_iff; [done|]. intros w. simpl.
    split.
    + intros [?|[(u & Hu & ? & ?)|[Hw ?]]]; auto.
      * right. left. exists u. by rewrite <-elem_of_vertexKeys.
      * right. right. by rewrite <-elem_of_vertexKeys.
    + intros [?|[(u & Hu & ? & ?)|[Hw ?]]]; auto.
      * right. left. exists u. by rewrite elem_of_vertexKeys.
      * right. right. by rewrite elem_of_vertexKeys.
Qed.

(** The flags returned, for a batch inside the graph. *)
Lemma louvainAffectedVertices_spec (dels ins : list (K * K)) :
  Forall (λ e, e.1 < span x ∧ e.2 < span x)%nat dels →
  Forall (λ e, e.1 < span x)%nat ins →
  ∃ r,
    louvainAffectedVertices dm x dels ins vcom vtot ctot M R = Some r ∧
    flags (span x) r
      (λ w, (∃ v, (w, v) ∈ dels ++ ins) ∨
            (∃ u v, (u, v) ∈ dels ++ ins ∧ hasVertex x u = true ∧
                    w ∈ edgeKeys x u) ∨
            (hasVertex x w = true ∧
             ∃ c, vcom !! w = Some c ∧
                  ((∃ u v, (u, v) ∈ dels ∧ vcom !! v = Some c) ∨
                   (c = 0%nat ∧ ins ≠ [])))).
Proof.
  intros Hdels Hins.
  destruct (louvainAffected_deletions dels Hdels)
    as (vs & ns & cs & Hrun1 & Hvs & Hns & Hcs).
  destruct (louvainAffected_insertions ins (replicate (span x) 0) vs ns cs
              _ _ Hins Hvs Hns Hcs)
    as (vs' & ns' & cs' & Hrun2 & Hvs' & Hns' & Hcs').
  destruct (louvainAffected_expand vs' ns' cs' _ _ Hvs' Hns' Hcs')
    as (r & Hrun3 & Hr).
  exists r. split.
  - unfold louvainAffectedVertices, louvainAffectedMarks.
    rewrite Hrun1. simpl. rewrite Hrun2. simpl. done.
  - eapply flags_iff; [done|]. intros w. simpl.
    setoid_rewrite elem_of_app. split.
    + intros [[[v Hv]|[v Hv]]|[(u & Hu & [[v Hv]|[v Hv]] & Hw)|Hc]].
      * left. exists v. by left.
      * left. exists v. by right.
      * right. left. exists u, v. split; [by left|done].
      * right. left. exists u, v. split; [by right|done].
      * right. by right.
    + intros [[v [Hv|Hv]]|[(u & v & [Hv|Hv] & Hu & Hw)|Hc]].
      * left. left. by exists v.
      * left. right. by exists v.
      * right. left. exists u. split; [done|]. split; [|done].
        left. by exists v.
      * right. left. exists u. split; [done|]. split; [|done].
        right. by exists v.
      * right. by right.
Qed.

End Affected.

(** X18: for a batch inside the graph louvainAffectedVertices returns one
    flag per key, and flags the source of every deletion and insertion, the
    end points of the edges of every live source, and every live vertex of
    the community of the target of a deletion. *)
Theorem louvainAffectedVertices_flags_batch dm x (dels ins : list (K * K))
    (vcom : list K) vtot ctot M R :
  wfGraph x → length vcom = span x → Forall (λ c, c < span x)%nat vcom →
  Forall (λ e, e.1 < span x ∧ e.2 < span x)%nat dels →
  Forall (λ e, e.1 < span x)%nat ins →
  ∃ r,
    louvainAffectedVertices dm x dels ins vcom vtot ctot M R = Some r ∧
    length r = span x ∧
    (∀ u v, (u, v) ∈ dels ++ ins → r !! u = Some true) ∧
    (∀ u v w, (u, v) ∈ dels ++ ins → hasVertex x u = true →
              w ∈ edgeKeys x u → r !! w = Some true) ∧
    (∀ u v w c, (u, v) ∈ dels → vcom !! v = Some c →
                hasVertex x w = true → vcom !! w = Some c →
                r !! w = Some true).
Proof.
  intros Hg Hlen Hcom Hdels Hins.
  destruct (louvainAffectedVertices_spec dm x vcom vtot ctot M R Hg Hlen Hcom
              dels ins Hdels Hins) as (r & Hrun & Hl & Hr).
  exists r. split_and!; try done.
  - intros u v Huv. apply Hr. left. eauto.
  - intros u v w Huv Hu Hw. apply Hr. right. left. eauto.
  - intros u v w c Huv Hc Hw Hwc. apply Hr. right. right.
    split; [done|]. exists c. split; [done|]. left. eauto.
Qed.

Lemma louvainAffectedVertices_flags_batch_witness :
  ∃ r,
    louvainAffectedVertices deltaModularity gPath [(2, 3); (3, 2)]%nat
      [(1, 2); (2, 1)]%nat vcomPath vtotPath ctotPath MPath 1 = Some r ∧
    length r = span gPath ∧
    (∀ u v, (u, v) ∈ [(2, 3); (3, 2)]%nat ++ [(1, 2); (2, 1)]%nat →
            r !! u = Some true) ∧
    (∀ u v w, (u, v) ∈ [(2, 3); (3, 2)]%nat ++ [(1, 2); (2, 1)]%nat →
              hasVertex gPath u = true → w ∈ edgeKeys gPath u →
              r !! w = Some true) ∧
    (∀ u v w c, (u, v) ∈ [(2, 3); (3, 2)]%nat → vcomPath !! v = Some c →
                hasVertex gPath w = true → vcomPath !! w = Some c →
                r !! w = Some true).
Proof.
  apply (louvainAffectedVertices_flags_batch deltaModularity gPath
           [(2, 3); (3, 2)]%nat [(1, 2); (2, 1)]%nat vcomPath vtotPath
           ctotPath MPath 1).
  - apply wfGraph_gPath.
  - reflexivity.
  - repeat constructor; unfold span, gPath; simpl; lia.
  - repeat constructor; unfold span, gPath; simpl; lia.
  - repeat constructor; unfold span, gPath; simpl; lia.
Defined.

(** X19: for a batch of deletions alone the flags are exact: a key is
    flagged if and only if it is the source of a deletion, an end point of
    an edge of a live source, or a live vertex of the community of the
    target of a deletion. *)
Theorem louvainAffectedVertices_deletions_exact dm x (dels : list (K * K))
    (vcom : list K) vtot ctot M R :
  wfGraph x → length vcom = span x → Forall (λ c, c < span x)%nat vcom →
  Forall (λ e, e.1 < span x ∧ e.2 < span x)%nat dels →
  ∃ r,
    louvainAffectedVertices dm x dels [] vcom vtot ctot M R = Some r ∧
    ∀ w, r !! w = Some true ↔
         (∃ v, (w, v) ∈ dels) ∨
         (∃ u v, (u, v) ∈ dels ∧ hasVertex x u = true ∧ w ∈ edgeKeys x u) ∨
         (hasVertex x w = true ∧
          ∃ u v c, (u, v) ∈ dels ∧ vcom !! v = Some c ∧ vcom !! w = Some c).
Proof.
  intros Hg Hlen Hcom Hdels.
  destruct (louvainAffectedVertices_spec dm x vcom vtot ctot M R Hg Hlen Hcom
              dels [] Hdels) as (r & Hrun & Hl & Hr); [constructor|].
  exists r. split; [done|]. intros w. rewrite Hr, app_nil_r. split.
  - intros [?|[?|[Hw (c & Hc & [(u & v & ? & ?)|[_ ?]])]]]; auto; [|done].
    right. right. split; [done|]. by exists u, v, c.
  - intros [?|[?|[Hw (u & v & c & ? & ? & ?)]]]; auto.
    right. right. split; [done|]. exists c. split; [done|]. left. eauto.
Qed.

Lemma louvainAffectedVertices_deletions_exact_witness :
  ∃ r,
    louvainAffectedVertices deltaModularity gPath [(2, 3); (3, 2)]%nat []
      vcomPath vtotPath ctotPath MPath 1 = Some r ∧
    ∀ w, r !! w = Some true ↔
         (∃ v, (w, v) ∈ [(2, 3); (3, 2)]%nat) ∨
         (∃ u v, (u, v) ∈ [(2, 3); (3, 2)]%nat ∧ hasVertex gPath u = true ∧
                 w ∈ edgeKeys gPath u) ∨
         (hasVertex gPath w = true ∧
          ∃ u v c, (u, v) ∈ [(2, 3); (3, 2)]%nat ∧ vcomPath !! v = Some c ∧
                   vcomPath !! w = Some c).
Proof.
  apply (louvainAffectedVertices_deletions_exact deltaModularity gPath
           [(2, 3); (3, 2)]%nat vcomPath vtotPath ctotPath MPath 1).
  - apply wfGraph_gPath.
  - reflexivity.
  - repeat constructor; unfold span, gPath; simpl; lia.
  - repeat constructor; unfold span, gPath; simpl; lia.
Defined.

(** X20: an empty batch flags no vertex. *)
Theorem louvainAffectedVertices_empty_batch dm x (vcom : list K)
    vtot ctot M R :
  wfGraph x → length vcom = span x → Forall (λ c, c < span x)%nat vcom →
  louvainAffectedVertices dm x [] [] vcom vtot ctot M R
  = Some (replicate (span x) false).
Proof.
  intros Hg Hlen Hcom.
  destruct (louvainAffectedVertices_spec dm x vcom vtot ctot M R Hg Hlen Hcom
              [] []) as (r & -> & Hl & Hr); [constructor..|].
  f_equal. apply list_eq. intros w.
  destruct (decide (w < span x)%nat) as [Hw|Hw].
  - rewrite lookup_replicate_2 by done.
    destruct (lookup_lt_is_Some_2 r w) as [[] Hb]; [lia| |done].
    apply Hr in Hb.
    destruct Hb as [[v ?%elem_of_nil]|[(u & v & ?%elem_of_nil & _)
      |[_ (c & _ & [(u & v & ?%elem_of_nil & _)|[_ ?]])]]]; done.
  - rewrite !lookup_ge_None_2; [done|rewrite length_replicate; lia|lia].
Qed.

Lemma louvainAffectedVertices_empty_batch_witness :
  louvainAffectedVertices deltaModularity gPath [] [] vcomPath vtotPath
    ctotPath MPath 1 = Some (replicate (span gPath) false).
Proof.
  apply (louvainAffectedVertices_empty_batch deltaModularity gPath vcomPath
           vtotPath ctotPath MPath 1).
  - apply wfGraph_gPath.
  - reflexivity.
  - repeat constructor; unfold span, gPath; simpl; lia.
Defined.

Lemma louvainAffectedInsertions_ignore_weights dm dm' x (vcom : list K)
    vtot vtot' ctot ctot' M M' R R' (ins : list (K * K)) vcout m :
  forEach (louvainAffectedInsertion dm x vcom vtot ctot M R) ins
    ([], vcout, m)
  = forEach (louvainAffectedInsertion dm' x vcom vtot' ctot' M' R') ins
      ([], vcout, m).
Proof.
  revert m. induction ins as [|[u v] ins IH]; intros [vs ns cs]; [done|].
  rewrite !forEach_cons, !louvainAffectedInsertion_nil.
  destruct (vget vcom u); [|done]. simpl.
  destruct (vset vs u true); [|done]. simpl.
  destruct (vset ns u true); [|done]. simpl.
  destruct (vset cs 0%nat true); [|done]. simpl. apply IH.
Qed.

(** X21: the flags louvainAffectedVertices returns do not depend on
    deltaModularity, vtot, ctot, M or R: the loop over the insertions
    chooses on an empty vcs, so no gain is ever computed. *)
Theorem louvainAffectedVertices_ignores_weights dm dm' x
    (dels ins : list (K * K)) (vcom : list K)
    vtot vtot' ctot ctot' M M' R R' :
  louvainAffectedVertices dm x dels ins vcom vtot ctot M R
  = louvainAffectedVertices dm' x dels ins vcom vtot' ctot' M' R'.
Proof.
  unfold louvainAffectedVertices, louvainAffectedMarks.
  destruct (forEach (louvainAffectedDeletion vcom) dels _) as [m|]; [|done].
  simpl.
  by rewrite (louvainAffectedInsertions_ignore_weights dm dm' x vcom
                vtot vtot' ctot ctot' M M' R R').
Qed.

(** ** Rounding *)

Lemma float_neq (a b : PrimFloat.float) :
  PrimFloat.eqb a a = true → PrimFloat.eqb a b = false → a ≠ b.
Proof. intros Ht Hf Heq. rewrite <-Heq in Hf. congruence. Qed.

(** C3 as worded fails in doubles: on the path with vertex weights
    0, 0.1, 0.2, 0.1, after louvainInitialize and the moves of vertex 1 to
    community 2 and back to community 1, vcom is the identity again and
    ctot[2] is 0.20000000000000004, while the sum of vtot over community 2
    is vtot[2] = 0.2. *)
Lemma community_weight_rounds_in_doubles :
  ∃ vcom1 ctot1 vcom ctot,
    Float64.louvainInitialize (replicate 4 0%nat)
      (replicate 4 PrimFloat.zero) Float64.gTenths Float64.vtotTenths
    = Some (vcom1, ctot1) ∧
    Float64.louvainChangeCommunities Float64.gTenths Float64.vtotTenths
      [(1, 2); (1, 1)]%nat (vcom1, ctot1) = Some (vcom, ctot) ∧
    vcom = [0; 1; 2; 3]%nat ∧
    ctot !! 2%nat = Some Float64.twoTenthsUp ∧
    Float64.communityWeight Float64.gTenths vcom Float64.vtotTenths 2
    = Float64.twoTenths ∧
    Float64.twoTenthsUp ≠ Float64.twoTenths.
Proof.
  eexists _, _, _, _. split_and!.
  - vm_compute. reflexivity.
  - vm_compute. reflexivity.
  - reflexivity.
  - reflexivity.
  - vm_compute. reflexivity.
  - apply float_neq; vm_compute; reflexivity.
Qed.

(** C10 as worded fails in doubles: with ctot = vtot = [0.1, 0.2, 0.4] the
    call that moves vertex 0 to community 2 leaves ctot = [0, 0.2, 0.5],
    whose sum is 0.7, while the sum was 0.7000000000000001. *)
Lemma louvainChangeCommunity_total_rounds_in_doubles :
  ∃ vcom' ctot',
    Float64.louvainChangeCommunity [0; 1; 2]%nat Float64.ctotThree
      Float64.gThree 0 2 Float64.ctotThree = Some (vcom', ctot') ∧
    Float64.sumV Float64.ctotThree = Float64.sevenTenthsUp ∧
    Float64.sumV ctot' = Float64.sevenTenths ∧
    Float64.sumV ctot' ≠ Float64.sumV Float64.ctotThree.
Proof.
  eexists _, _. split_and!.
  - vm_compute. reflexivity.
  - vm_compute. reflexivity.
  - vm_compute. reflexivity.
  - apply float_neq; vm_compute; reflexivity.
Qed.

(** The call at doubles: what it writes, by position. *)
Lemma louvainChangeCommunity_doubles_eq (vcom : list K)
    (ctot : list PrimFloat.float) x u c (vtot : list PrimFloat.float)
    d td tu :
  vcom !! u = Some d → ctot !! d = Some td → vtot !! u = Some tu →
  (c < length ctot)%nat →
  ∃ tc, <[d:=PrimFloat.sub td tu]> ctot !! c = Some tc ∧
    Float64.louvainChangeCommunity vcom ctot x u c vtot
    = Some (<[u:=c]> vcom,
            <[c:=PrimFloat.add tc tu]> (<[d:=PrimFloat.sub td tu]> ctot)).
Proof.
  intros Hd Htd Htu Hc.
  assert (d < length ctot)%nat as Hdl by by eapply lookup_lt_Some.
  assert (u < length vcom)%nat as Hul by by eapply lookup_lt_Some.
  assert (c < length (<[d:=PrimFloat.sub td tu]> ctot))%nat as Hcl
    by by rewrite length_insert.
  destruct (lookup_lt_is_Some_2 _ _ Hcl) as [tc Htc].
  exists tc. split; [done|].
  unfold Float64.louvainChangeCommunity, vget. rewrite Hd. simpl.
  rewrite Htd. simpl. rewrite Htu. simpl.
  rewrite (vset_lt _ _ _ Hdl). simpl. rewrite Htc. simpl.
  rewrite (vset_lt _ _ _ Hcl). simpl.
  by rewrite (vset_lt _ _ _ Hul).
Qed.

(** C10 (amended): a call of louvainChangeCommunity inside the vectors
    changes no entry of ctot besides those of the old community of u and
    of c and no entry of vcom besides that of u, in doubles as in exact
    arithmetic; in exact arithmetic (V the rationals) it also keeps the sum
    of ctot over all community ids. *)
Theorem louvainChangeCommunity_frame_exact_total :
  (∀ (vcom : list K) (ctot : list PrimFloat.float) x u c
     (vtot : list PrimFloat.float) d,
     vcom !! u = Some d → (d < length ctot)%nat → (c < length ctot)%nat →
     (u < length vtot)%nat →
     ∃ vcom' ctot',
       Float64.louvainChangeCommunity vcom ctot x u c vtot
         = Some (vcom', ctot') ∧
       (∀ k, k ≠ d → k ≠ c → ctot' !! k = ctot !! k) ∧
       (∀ k, k ≠ u → vcom' !! k = vcom !! k) ∧
       length ctot' = length ctot ∧ length vcom' = length vcom) ∧
  (∀ (vcom : list K) (ctot : list V) x u c (vtot : list V) d,
     vcom !! u = Some d → (d < length ctot)%nat → (c < length ctot)%nat →
     (u < length vtot)%nat →
     ∃ vcom' ctot',
       louvainChangeCommunity vcom ctot x u c vtot = Some (vcom', ctot') ∧
       sumV ctot' = sumV ctot ∧
       (∀ k, k ≠ d → k ≠ c → ctot' !! k = ctot !! k) ∧
       (∀ k, k ≠ u → vcom' !! k = vcom !! k) ∧
       length ctot' = length ctot ∧ length vcom' = length vcom).
Proof.
  split.
  - intros vcom ctot x u c vtot d Hd Hdl Hc Hul.
    destruct (lookup_lt_is_Some_2 ctot d Hdl) as [td Htd].
    destruct (lookup_lt_is_Some_2 vtot u Hul) as [tu Htu].
    destruct (louvainChangeCommunity_doubles_eq vcom ctot x u c vtot d td tu)
      as (tc & Htc & ->); try done.
    eexists _, _. split; [done|]. split_and!.
    + intros k Hkd Hkc. by rewrite !list_lookup_insert_ne.
    + intros k Hk. by rewrite list_lookup_insert_ne.
    + by rewrite !length_insert.
    + by rewrite length_insert.
  - intros vcom ctot x u c vtot d Hd Hdl Hc Hul.
    destruct (lookup_lt_is_Some_2 ctot d Hdl) as [td Htd].
    destruct (lookup_lt_is_Some_2 vtot u Hul) as [tu Htu].
    destruct (louvainChangeCommunity_eq vcom ctot x u c vtot d td tu)
      as (tc & Htc & ->); try done.
    eexists _, _. split; [done|]. split_and!.
    + rewrite (sumV_insert _ _ _ _ Htc), (sumV_insert _ _ _ _ Htd).
      destruct (decide (c = d)) as [->|Hne].
      * rewrite list_lookup_insert_eq in Htc by done. simplify_eq. ring.
      * rewrite list_lookup_insert_ne in Htc by done. ring.
    + intros k Hkd Hkc. by rewrite !list_lookup_insert_ne.
    + intros k Hk. by rewrite list_lookup_insert_ne.
    + by rewrite !length_insert.
    + by rewrite length_insert.
Qed.

Lemma louvainChangeCommunity_frame_exact_total_witness :
  (∃ vcom' ctot',
     Float64.louvainChangeCommunity [0; 1; 2]%nat Float64.ctotThree
       Float64.gThree 0 2 Float64.ctotThree = Some (vcom', ctot') ∧
     (∀ k, k ≠ 0%nat → k ≠ 2%nat → ctot' !! k = Float64.ctotThree !! k) ∧
     (∀ k, k ≠ 0%nat → vcom' !! k = [0; 1; 2]%nat !! k) ∧
     length ctot' = length Float64.ctotThree ∧
     length vcom' = length [0; 1; 2]%nat) ∧
  (∃ vcom' ctot',
     louvainChangeCommunity vcomPath ctotPath gPath 1 2 vtotPath
       = Some (vcom', ctot') ∧
     sumV ctot' = sumV ctotPath ∧
     (∀ k, k ≠ 1%nat → k ≠ 2%nat → ctot' !! k = ctotPath !! k) ∧
     (∀ k, k ≠ 1%nat → vcom' !! k = vcomPath !! k) ∧
     length ctot' = length ctotPath ∧ length vcom' = length vcomPath).
Proof.
  split.
  - apply (proj1 louvainChangeCommunity_frame_exact_total [0; 1; 2]%nat
             Float64.ctotThree Float64.gThree 0%nat 2%nat Float64.ctotThree
             0%nat).
    + reflexivity.
    + simpl. lia.
    + simpl. lia.
    + simpl. lia.
  - apply (proj2 louvainChangeCommunity_frame_exact_total vcomPath ctotPath
             gPath 1%nat 2%nat vtotPath 1%nat).
    + reflexivity.
    + simpl. lia.
    + simpl. lia.
    + simpl. lia.
Defined.
